(** * The recording refinement pipeline of [automation-engine.ts]

    A shallow embedding of [deduceGoal], [traceBackward], [pruneNoise] and
    [processRecording], together with the JavaScript containers they rely
    on, followed by the properties of the refinement pipeline. The summary
    [describeTask] and the teaching session of the component in [App.tsx]
    are embedded after the engine.

    Conventions of the embedding:
    - a JavaScript [number] used as a timestamp is an integer ([Z]), as the
      millisecond readings of the recorder are; the template literal
      [`${action.timestamp}`] is its decimal rendering, which is how
      JavaScript prints an integer below 10^21;
    - a JavaScript string is a [string], read as a sequence of code units
      below 256;
    - a [Map] is an association list in insertion order ([JsMap]): the
      order is observable through [Array.from(m.values())];
    - the plain object [formValues] is a [gmap] with the two behaviours that
      a plain object adds to a map ([JsObject]);
    - a [Set] that is only queried with [has] is a [gset];
    - [Date.now()] is an explicit argument [now]. *)

From Stdlib Require Import ZArith String Ascii List Lia.
From stdpp Require Import base gmap sets list sorting strings pretty.

Local Open Scope Z_scope.

(** ** Data model (App.tsx) *)

(** [value?: string | boolean] *)
Inductive Value :=
| VUndefined
| VString (s : string)
| VBoolean (b : bool).

#[global] Instance Value_eq_dec : EqDecision Value.
Proof. solve_decision. Defined.

(** [interface RecordedAction]. The declared type of [type] is the union
    ["click" | "input" | "toggle"]; the engine compares it with string
    literals, so it is kept as the string it is at run time. *)
Record RecordedAction := mkAction {
  type : string;
  target : string;
  value : Value;
  timestamp : Z
}.

#[global] Instance RecordedAction_eq_dec : EqDecision RecordedAction.
Proof. solve_decision. Defined.

(** The three kinds of the declared union. *)
Definition declared_type (a : RecordedAction) : bool :=
  bool_decide (type a = "click") || bool_decide (type a = "input")
  || bool_decide (type a = "toggle").

(** The value shape each kind is documented to carry: nothing for a click,
    a string for an input, a boolean for a toggle. *)
Definition value_fits_type (a : RecordedAction) : bool :=
  match value a with
  | VUndefined => bool_decide (type a = "click")
  | VString _ => bool_decide (type a = "input")
  | VBoolean _ => bool_decide (type a = "toggle")
  end.

Definition malformed (a : RecordedAction) : bool :=
  negb (declared_type a) || negb (value_fits_type a).

(** ** JavaScript containers *)

(** [Map<string, V>]: entries in insertion order; [set] on a present key
    replaces the value and keeps the position of the entry. *)
Module JsMap.
Section Defs.
Context {V : Type}.

Fixpoint get (k : string) (m : list (string * V)) : option V :=
  match m with
  | [] => None
  | (k', v) :: m' => if decide (k' = k) then Some v else get k m'
  end.

Fixpoint set (k : string) (v : V) (m : list (string * V)) : list (string * V) :=
  match m with
  | [] => [(k, v)]
  | (k', v') :: m' =>
      if decide (k' = k) then (k, v) :: m' else (k', v') :: set k v m'
  end.

Definition keys (m : list (string * V)) : list string := map fst m.
Definition values (m : list (string * V)) : list V := map snd m.

End Defs.
End JsMap.

(** A plain object [{}] used as [Record<string, string>]. It differs from a
    map in two ways: assigning a string to the key [__proto__] runs the
    inherited setter, which ignores values that are neither objects nor
    null, so no own property is created; and reading a key that is not an
    own property falls back to the members of [Object.prototype]. *)
Module JsObject.

Definition prototype_keys : list string :=
  [ "constructor"; "__defineGetter__"; "__defineSetter__"; "hasOwnProperty";
    "__lookupGetter__"; "__lookupSetter__"; "isPrototypeOf";
    "propertyIsEnumerable"; "toString"; "valueOf"; "__proto__";
    "toLocaleString" ].

(** [o[k] = v] for a string [v] *)
Definition assign (k v : string) (o : gmap string string) : gmap string string :=
  if decide (k = "__proto__") then o else <[k := v]> o.

(** The result of [o[k]]: an own string, an inherited member (a function or
    the prototype object), or [undefined]. *)
Inductive Read :=
| Own (s : string)
| Inherited
| Undefined.

Definition read (k : string) (o : gmap string string) : Read :=
  match o !! k with
  | Some s => Own s
  | None => if decide (k ∈ prototype_keys) then Inherited else Undefined
  end.

(** [v === o[k]] for [v : string | boolean | undefined]: an inherited
    member is an object and equals none of these. *)
Definition strict_eq (v : Value) (r : Read) : bool :=
  match v, r with
  | VString a, Own b => bool_decide (a = b)
  | VUndefined, Undefined => true
  | _, _ => false
  end.

End JsObject.

(** ** Strings *)

(** The code units below 256 that [String.prototype.trim] strips: TAB, LF,
    VT, FF, CR, space and the no-break space. *)
Definition is_whitespace (c : ascii) : bool :=
  match c with
  | "009" | "010" | "011" | "012" | "013" | " " | "160" => true
  | _ => false
  end%char.

Fixpoint trimStart (s : string) : string :=
  match s with
  | EmptyString => EmptyString
  | String c s' => if is_whitespace c then trimStart s' else s
  end.

Definition trimEnd (s : string) : string :=
  String.rev (trimStart (String.rev s)).

Definition trim (s : string) : string := trimEnd (trimStart s).

(** [target.startsWith('task-')] *)
Definition startsWith (prefix s : string) : bool := String.prefix prefix s.

(** ** Sorting *)

(** [Array.prototype.sort] with the comparator
    [(a, b) => a.timestamp - b.timestamp]. The sort is stable and the
    comparator is a total preorder, which fixes the result; it is computed
    here by insertion, an element going before the first one it does not
    compare greater than. *)
Definition compare_timestamps (a b : RecordedAction) : Z :=
  timestamp a - timestamp b.

Fixpoint sort_insert (a : RecordedAction) (l : list RecordedAction)
  : list RecordedAction :=
  match l with
  | [] => [a]
  | b :: l' =>
      if decide (compare_timestamps a b <= 0) then a :: l
      else b :: sort_insert a l'
  end.

Definition sort_by_timestamp (l : list RecordedAction) : list RecordedAction :=
  foldr sort_insert [] l.

(** ** automation-engine.ts *)

(** [interface FinalState] *)
Module FinalState.
Record t := mk {
  completedTasks : list string;
  formValues : gmap string string;
  timestamp : Z
}.
End FinalState.

(** The entries [{ value, timestamp }] of the table [targetStates]. *)
Module TargetState.
Record t := mk {
  value : Value;
  timestamp : Z
}.
End TargetState.

(** [!existing || action.timestamp > existing.timestamp], the guard shared
    by the three per-target reductions. *)
Definition newer (existing : option Z) (action : RecordedAction) : bool :=
  match existing with
  | None => true
  | Some t => bool_decide (timestamp action > t)
  end.

(** *** Module 1: goal deduction *)

(** The body of the first [forEach] of [deduceGoal]. *)
Definition recordTargetState (targetStates : list (string * TargetState.t))
    (action : RecordedAction) : list (string * TargetState.t) :=
  let existing := JsMap.get (target action) targetStates in
  if newer (TargetState.timestamp <$> existing) action then
    JsMap.set (target action)
      (TargetState.mk (value action) (timestamp action)) targetStates
  else targetStates.

(** The table [targetStates] after the first loop. *)
Definition targetStatesOf (actions : list RecordedAction)
  : list (string * TargetState.t) :=
  fold_left recordTargetState actions [].

(** The body of the second [forEach]: classification of one entry. *)
Definition classify (finalState : FinalState.t)
    (entry : string * TargetState.t) : FinalState.t :=
  let '(target, state) := entry in
  if startsWith "task-" target
     && bool_decide (TargetState.value state = VBoolean true)
  then
    FinalState.mk (FinalState.completedTasks finalState ++ [target])
      (FinalState.formValues finalState) (FinalState.timestamp finalState)
  else
    match TargetState.value state with
    | VString s =>
        if negb (bool_decide (trim s = "")) then
          FinalState.mk (FinalState.completedTasks finalState)
            (JsObject.assign target s (FinalState.formValues finalState))
            (FinalState.timestamp finalState)
        else finalState
    | _ => finalState
    end.

Definition deduceGoal (now : Z) (actions : list RecordedAction) : FinalState.t :=
  let finalState := FinalState.mk [] ∅ now in
  let targetStates := targetStatesOf actions in
  fold_left classify targetStates finalState.

(** *** Module 2: backward tracing *)

Definition shouldKeep (goal : FinalState.t) (action : RecordedAction) : bool :=
  (bool_decide (type action = "toggle")
   && bool_decide (target action ∈ FinalState.completedTasks goal))
  || (bool_decide (type action = "input")
      && JsObject.strict_eq (value action)
           (JsObject.read (target action) (FinalState.formValues goal))).

(** [necessaryTargets]: the completed tasks and the keys of [formValues]. *)
Definition necessaryTargetsOf (goal : FinalState.t) : gset string :=
  list_to_set (FinalState.completedTasks goal) ∪ dom (FinalState.formValues goal).

(** The body of the [forEach] of [traceBackward]. *)
Definition recordLastAction (goal : FinalState.t) (necessaryTargets : gset string)
    (targetToLastAction : list (string * RecordedAction))
    (action : RecordedAction) : list (string * RecordedAction) :=
  if bool_decide (target action ∈ necessaryTargets) then
    let existing := JsMap.get (target action) targetToLastAction in
    if newer (timestamp <$> existing) action then
      if shouldKeep goal action then
        JsMap.set (target action) action targetToLastAction
      else targetToLastAction
    else targetToLastAction
  else targetToLastAction.

Definition traceBackward (actions : list RecordedAction) (goal : FinalState.t)
  : list RecordedAction :=
  let necessaryTargets := necessaryTargetsOf goal in
  let targetToLastAction :=
    fold_left (recordLastAction goal necessaryTargets) actions [] in
  sort_by_timestamp (JsMap.values targetToLastAction).

(** *** Module 3: noise pruning *)

(** [`${action.timestamp}-${action.target}`] *)
Definition keyOf (action : RecordedAction) : string :=
  pretty (timestamp action) +:+ "-" +:+ target action.

(** The body of the [forEach] of [pruneNoise]. *)
Definition recordUnique (uniqueTargets : list (string * RecordedAction))
    (action : RecordedAction) : list (string * RecordedAction) :=
  let existing := JsMap.get (target action) uniqueTargets in
  if newer (timestamp <$> existing) action then
    JsMap.set (target action) action uniqueTargets
  else uniqueTargets.

Definition pruneNoise (rawLog keepList : list RecordedAction)
  : list RecordedAction :=
  let keepSet : gset string := list_to_set (keyOf <$> keepList) in
  let refinedScript := filter (λ action, keyOf action ∈ keepSet) rawLog in
  let uniqueTargets := fold_left recordUnique refinedScript [] in
  sort_by_timestamp (JsMap.values uniqueTargets).

(** *** The orchestrator *)

Definition processRecording (now : Z) (rawLog : list RecordedAction)
  : list RecordedAction :=
  if decide (length rawLog = 0%nat) then []
  else
    let goal := deduceGoal now rawLog in
    let keepList := traceBackward rawLog goal in
    pruneNoise rawLog keepList.

(** ** Sample logs *)

Definition click (t : string) (at_ : Z) : RecordedAction :=
  mkAction "click" t VUndefined at_.
Definition input (t v : string) (at_ : Z) : RecordedAction :=
  mkAction "input" t (VString v) at_.
Definition toggle (t : string) (v : bool) (at_ : Z) : RecordedAction :=
  mkAction "toggle" t (VBoolean v) at_.

Definition scenarioC : list RecordedAction :=
  [input "name" "Bob" 1; input "name" "Bob and Alice" 2; input "name" "Bob" 3].

(** ** Specification vocabulary *)

(** What one of the three per-target reductions holds for target [t] after
    scanning [l], starting from the candidate [cur]: a record of that
    target replaces the candidate when there is none or when it is strictly
    newer. *)
Fixpoint pick_from (cur : option RecordedAction) (t : string)
    (l : list RecordedAction) : option RecordedAction :=
  match l with
  | [] => cur
  | a :: l' =>
      pick_from
        (if decide (target a = t)
         then if newer (timestamp <$> cur) a then Some a else cur
         else cur) t l'
  end.

(** [a] is the first record of [l], among those of target [t], that carries
    the greatest timestamp of that target. *)
Definition first_latest (t : string) (l : list RecordedAction)
    (a : RecordedAction) : Prop :=
  ∃ l1 l2, l = l1 ++ a :: l2 ∧ target a = t
    ∧ (∀ b, b ∈ l1 → target b = t → timestamp b < timestamp a)
    ∧ (∀ b, b ∈ l2 → target b = t → timestamp b ≤ timestamp a).

(** The table entry written for a record by [deduceGoal]. *)
Definition stateOf (a : RecordedAction) : TargetState.t :=
  TargetState.mk (value a) (timestamp a).

(** The shape shared by the three loops: a record that passes the guard [p]
    and is [newer] than the entry of its target overwrites that entry with
    [mk a]; [at_ (mk a)] is the timestamp of the record. *)
Definition reduce_step {V : Type} (at_ : V → Z) (mk : RecordedAction → V)
    (p : RecordedAction → bool) (m : list (string * V)) (a : RecordedAction)
  : list (string * V) :=
  if p a then
    if newer (at_ <$> JsMap.get (target a) m) a
    then JsMap.set (target a) (mk a) m else m
  else m.

(** The table that the loops of [traceBackward] and [pruneNoise] build: the
    records themselves, reduced under a guard [p]. *)
Definition selected (p : RecordedAction → bool) (l : list RecordedAction)
  : list (string * RecordedAction) :=
  fold_left (reduce_step timestamp id p) l [].

(** The guard of [traceBackward] as one test. *)
Definition traced (goal : FinalState.t) (a : RecordedAction) : bool :=
  bool_decide (target a ∈ necessaryTargetsOf goal) && shouldKeep goal a.

(** Ascending order of timestamps. *)
Definition chronological (l : list RecordedAction) : Prop :=
  StronglySorted (λ a b, timestamp a ≤ timestamp b) l.

(** The two classifications of [classify], as tests on one entry. *)
Definition completes (t : string) (v : Value) : bool :=
  startsWith "task-" t && bool_decide (v = VBoolean true).

Definition settles (t : string) (v : Value) : option string :=
  if completes t v then None
  else match v with
       | VString s =>
           if negb (bool_decide (trim s = "")) && negb (bool_decide (t = "__proto__"))
           then Some s else None
       | _ => None
       end.

(** A record that is its own goal: it carries a terminal value and has the
    kind that [shouldKeep] asks of a record with that value. *)
Definition settled (a : RecordedAction) : bool :=
  (completes (target a) (value a) && bool_decide (type a = "toggle"))
  || (bool_decide (is_Some (settles (target a) (value a)))
      && bool_decide (type a = "input")).

(** Boolean [true] is only carried by toggles and strings only by inputs. *)
Definition kind_agrees (a : RecordedAction) : Prop :=
  match value a with
  | VBoolean true => type a = "toggle"
  | VString _ => type a = "input"
  | _ => True
  end.

(** Two records that differ at most in their kind. *)
Definition same_payload (a b : RecordedAction) : Prop :=
  target a = target b ∧ value a = value b ∧ timestamp a = timestamp b.

(** A string without the separator of [keyOf]. *)
Fixpoint no_dash (s : string) : bool :=
  match s with
  | EmptyString => true
  | String c s' => negb (bool_decide (c = "-"%char)) && no_dash s'
  end.

(** The record that the specification of goal deduction names for a
    target: of greatest timestamp, and the last such record of the log when
    several share that timestamp. *)
Definition spec_last_latest (t : string) (l : list RecordedAction)
    (a : RecordedAction) : Prop :=
  ∃ l1 l2, l = l1 ++ a :: l2 ∧ target a = t
    ∧ (∀ b, b ∈ l1 → target b = t → timestamp b ≤ timestamp a)
    ∧ (∀ b, b ∈ l2 → target b = t → timestamp b < timestamp a).

(** A terminal value that [classify] drops whatever the target: absent,
    boolean [false], or a string that is empty once trimmed. *)
Definition blank_value (v : Value) : Prop :=
  match v with
  | VUndefined => True
  | VBoolean b => b = false
  | VString s => trim s = ""
  end.

(** Two writes of one field at the same timestamp. *)
Definition tie_log : list RecordedAction :=
  [input "email" "first" 7; input "email" "second" 7].

(** A field left with surrounding blanks. *)
Definition padded_log : list RecordedAction := [input "name" " Bob " 1].

(** A click that carries [true] on a task, and a toggle that carries a
    string: both are outside the documented shapes. *)
Definition click_true : RecordedAction :=
  mkAction "click" "task-1" (VBoolean true) 10.
Definition toggle_text : RecordedAction :=
  mkAction "toggle" "name" (VString "Bob") 1.

(** A task switched off by a toggle and later reported on by a click. *)
Definition off_then_click : list RecordedAction :=
  [toggle "task-1" false 5; click_true].

(** A click that carries the text typed at the same instant. *)
Definition click_then_input : list RecordedAction :=
  [mkAction "click" "name" (VString "Bob") 1; input "name" "Bob" 1].

(** A field whose identifier is [__proto__]. *)
Definition proto_log : list RecordedAction := [input "__proto__" "x" 1].

Definition scenarioA : list RecordedAction :=
  [toggle "task-1" true 10; toggle "task-1" false 5].

Definition scenarioB : list RecordedAction :=
  [input "email" "a@x.com" 1; input "email" "" 2].

Definition scenarioD : list RecordedAction :=
  [toggle "task-1" true 1; input "name" "Al" 2; toggle "task-2" true 3;
   input "name" "Alice" 4; toggle "task-2" false 5].

(** ** automation-engine.ts: the descriptive summary *)

(** [Array.from(new Set(xs))]: the distinct elements of [xs] in the order of
    their first occurrence. *)
Definition set_add (s : list string) (x : string) : list string :=
  if decide (x ∈ s) then s else s ++ [x].

Definition array_from_set (xs : list string) : list string :=
  fold_left set_add xs [].

(** [xs.join(sep)] *)
Definition join (sep : string) (xs : list string) : string :=
  match xs with
  | [] => ""
  | x :: rest => fold_left (λ acc y, acc +:+ sep +:+ y) rest x
  end.

(** [typeof v === 'string'] *)
Definition is_string (v : Value) : bool :=
  match v with VString _ => true | _ => false end.

(** The body of the [forEach] of [describeTask]. *)
Definition describeAction (descriptions : list string)
    (action : RecordedAction) : list string :=
  if bool_decide (type action = "toggle")
     && bool_decide (value action = VBoolean true)
  then descriptions ++ ["complete a task"]
  else if bool_decide (type action = "input") && is_string (value action)
  then descriptions ++ ["fill a form field"]
  else descriptions.

(** [uniqueDescriptions[0]] is read only when the array has one element;
    out of range the read would give [undefined]. *)
Definition describeTask (actions : list RecordedAction) : string :=
  if decide (length actions = 0%nat) then "No actions recorded"
  else
    let descriptions := fold_left describeAction actions [] in
    let uniqueDescriptions := array_from_set descriptions in
    if decide (length uniqueDescriptions = 0%nat) then "Perform actions"
    else if decide (length uniqueDescriptions = 1%nat)
    then default "undefined" (uniqueDescriptions !! 0%nat)
    else join " and " uniqueDescriptions.

(** The records that contribute a phrase to the summary. *)
Definition completes_task (a : RecordedAction) : bool :=
  bool_decide (type a = "toggle") && bool_decide (value a = VBoolean true).

Definition fills_field (a : RecordedAction) : bool :=
  negb (completes_task a)
  && bool_decide (type a = "input") && is_string (value a).

(** ** App.tsx: the teaching session

    The component keeps its state in [useState] cells and changes it in
    event handlers. A handler is modelled on the state of the render it
    belongs to: it returns the state of the next render and the timers it
    sets with [setTimeout], each a delay and a callback that changes the
    state when it fires. [handleRunAutomation], whose messages are not
    Latin-1 text and which only drives timers, is left out. *)
Module App.

Record State := mkState {
  isTeaching : bool;
  showSuggestion : bool;
  showScheduler : bool;
  showFeedback : bool;
  feedbackMessage : string;
  recordedActions : list RecordedAction;
  savedTask : option (list RecordedAction);
  isAutomating : bool;
  rawActionCount : nat;
  scheduledTime : option string;
  teachingJustFinished : bool
}.

(** The initial values of the [useState] cells. *)
Definition initial : State :=
  mkState false false false false "" [] None false 0 None false.

Definition setIsTeaching (v : bool) (s : State) : State :=
  mkState v (showSuggestion s) (showScheduler s) (showFeedback s)
    (feedbackMessage s) (recordedActions s) (savedTask s) (isAutomating s)
    (rawActionCount s) (scheduledTime s) (teachingJustFinished s).

Definition setShowSuggestion (v : bool) (s : State) : State :=
  mkState (isTeaching s) v (showScheduler s) (showFeedback s)
    (feedbackMessage s) (recordedActions s) (savedTask s) (isAutomating s)
    (rawActionCount s) (scheduledTime s) (teachingJustFinished s).

Definition setShowScheduler (v : bool) (s : State) : State :=
  mkState (isTeaching s) (showSuggestion s) v (showFeedback s)
    (feedbackMessage s) (recordedActions s) (savedTask s) (isAutomating s)
    (rawActionCount s) (scheduledTime s) (teachingJustFinished s).

Definition setShowFeedback (v : bool) (s : State) : State :=
  mkState (isTeaching s) (showSuggestion s) (showScheduler s) v
    (feedbackMessage s) (recordedActions s) (savedTask s) (isAutomating s)
    (rawActionCount s) (scheduledTime s) (teachingJustFinished s).

Definition setFeedbackMessage (v : string) (s : State) : State :=
  mkState (isTeaching s) (showSuggestion s) (showScheduler s) (showFeedback s)
    v (recordedActions s) (savedTask s) (isAutomating s)
    (rawActionCount s) (scheduledTime s) (teachingJustFinished s).

Definition setRecordedActions (v : list RecordedAction) (s : State) : State :=
  mkState (isTeaching s) (showSuggestion s) (showScheduler s) (showFeedback s)
    (feedbackMessage s) v (savedTask s) (isAutomating s)
    (rawActionCount s) (scheduledTime s) (teachingJustFinished s).

Definition setSavedTask (v : option (list RecordedAction)) (s : State) : State :=
  mkState (isTeaching s) (showSuggestion s) (showScheduler s) (showFeedback s)
    (feedbackMessage s) (recordedActions s) v (isAutomating s)
    (rawActionCount s) (scheduledTime s) (teachingJustFinished s).

Definition setRawActionCount (v : nat) (s : State) : State :=
  mkState (isTeaching s) (showSuggestion s) (showScheduler s) (showFeedback s)
    (feedbackMessage s) (recordedActions s) (savedTask s) (isAutomating s)
    v (scheduledTime s) (teachingJustFinished s).

Definition setScheduledTime (v : option string) (s : State) : State :=
  mkState (isTeaching s) (showSuggestion s) (showScheduler s) (showFeedback s)
    (feedbackMessage s) (recordedActions s) (savedTask s) (isAutomating s)
    (rawActionCount s) v (teachingJustFinished s).

Definition setTeachingJustFinished (v : bool) (s : State) : State :=
  mkState (isTeaching s) (showSuggestion s) (showScheduler s) (showFeedback s)
    (feedbackMessage s) (recordedActions s) (savedTask s) (isAutomating s)
    (rawActionCount s) (scheduledTime s) v.

(** The callbacks handed to [setTimeout]. *)
Inductive Callback :=
| RevealSuggestion
| HideFeedback.

Record Timer := mkTimer {
  callback : Callback;
  delay : Z
}.

(** What a callback does to the state when its timer fires. *)
Definition fire (c : Callback) (s : State) : State :=
  match c with
  | RevealSuggestion => setTeachingJustFinished false (setShowSuggestion true s)
  | HideFeedback => setShowFeedback false s
  end.

Definition handleStartTeaching (s : State) : State :=
  setRawActionCount 0 (setRecordedActions []
    (setShowSuggestion false (setIsTeaching true s))).

Definition handleRecordAction (s : State) (action : RecordedAction) : State :=
  if isTeaching s then setRecordedActions (recordedActions s ++ [action]) s
  else s.

Definition handleFinishTeaching (now : Z) (s : State) : State * list Timer :=
  let s1 := setTeachingJustFinished true (setIsTeaching false s) in
  if (0 <? length (recordedActions s))%nat then
    let s2 := setRawActionCount (length (recordedActions s)) s1 in
    let refinedScript := processRecording now (recordedActions s) in
    if (0 <? length refinedScript)%nat then
      (setRecordedActions refinedScript s2, [mkTimer RevealSuggestion 500])
    else (s2, [])
  else (s1, []).

Definition handleCancelTeaching (s : State) : State :=
  setRecordedActions [] (setIsTeaching false s).

Definition handleYesSuggestion (s : State) : State * list Timer :=
  (setShowFeedback true
     (setFeedbackMessage "Task saved. I'll handle it next time."
        (setSavedTask (Some (recordedActions s)) (setShowSuggestion false s))),
   [mkTimer HideFeedback 2500]).

Definition handleNotNow (s : State) : State :=
  setRecordedActions [] (setShowSuggestion false s).

Definition handleSchedule (s : State) : State :=
  setShowScheduler true (setShowSuggestion false s).

Definition handleScheduleAutomation (time : string) (s : State)
  : State * list Timer :=
  (setShowFeedback true
     (setFeedbackMessage ("Autopilot scheduled for " +:+ time +:+ " daily.")
        (setScheduledTime (Some time)
           (setSavedTask (Some (recordedActions s))
              (setShowScheduler false s)))),
   [mkTimer HideFeedback 2500]).

Definition handleCancelScheduler (s : State) : State :=
  setShowSuggestion true (setShowScheduler false s).

(** A whole teaching session: start, record [actions] one by one, finish. *)
Definition teach (now : Z) (actions : list RecordedAction) (s : State)
  : State * list Timer :=
  handleFinishTeaching now
    (fold_left handleRecordAction actions (handleStartTeaching s)).

End App.

(** ** More specification vocabulary *)

(** The six phrases of [describeTask]. *)
Definition summaries : list string :=
  [ "No actions recorded"; "Perform actions"; "complete a task";
    "fill a form field"; "complete a task and fill a form field";
    "fill a form field and complete a task" ].

(** The phrase a record contributes to the summary, if any. *)
Definition phrase (a : RecordedAction) : option string :=
  if completes_task a then Some "complete a task"
  else if fills_field a then Some "fill a form field"
  else None.

(** The possible contents of [uniqueDescriptions]. *)
Definition phrase_lists : list (list string) :=
  [ []; ["complete a task"]; ["fill a form field"];
    ["complete a task"; "fill a form field"];
    ["fill a form field"; "complete a task"] ].

(** The summaries that name the completion of a task. *)
Definition task_summaries : list string :=
  [ "complete a task"; "complete a task and fill a form field";
    "fill a form field and complete a task" ].

(** Each record of the log has a timestamp strictly greater than those of
    the records before it. *)
Definition strictly_chronological (l : list RecordedAction) : Prop :=
  StronglySorted (λ a b, timestamp a < timestamp b) l.

(** No two records of the log share both target and timestamp. *)
Definition identity_unique (l : list RecordedAction) : Prop :=
  ∀ a b, a ∈ l → b ∈ l →
    target a = target b → timestamp a = timestamp b → a = b.

(** * Properties *)

(** ** Association lists in insertion order *)

Section JsMapFacts.
Context {V : Type}.
Implicit Types (m : list (string * V)) (k : string) (v : V).

Lemma get_set_eq k v m : JsMap.get k (JsMap.set k v m) = Some v.
Proof.
  induction m as [|[k' v'] m IH]; simpl.
  - by rewrite decide_True.
  - destruct (decide (k' = k)) as [->|Hne]; simpl.
    + by rewrite decide_True.
    + by rewrite decide_False.
Qed.

Lemma get_set_ne k k' v m :
  k ≠ k' → JsMap.get k' (JsMap.set k v m) = JsMap.get k' m.
Proof.
  intros Hne. induction m as [|[k0 v0] m IH]; simpl.
  - by rewrite decide_False.
  - destruct (decide (k0 = k)) as [->|Hk0]; simpl.
    + by rewrite !decide_False.
    + destruct (decide (k0 = k')); auto.
Qed.

Lemma get_None k m : JsMap.get k m = None ↔ k ∉ JsMap.keys m.
Proof.
  induction m as [|[k' v'] m IH]; simpl.
  - split; [intros _; apply not_elem_of_nil | done].
  - rewrite not_elem_of_cons. destruct (decide (k' = k)) as [->|Hne].
    + split; [done | by intros []].
    + rewrite IH. split; [by intros ?; split; [congruence|] | by intros [_ ?]].
Qed.

Lemma get_Some_elem k v m : JsMap.get k m = Some v → (k, v) ∈ m.
Proof.
  induction m as [|[k' v'] m IH]; simpl; [done|].
  destruct (decide (k' = k)) as [->|Hne].
  - intros [= ->]. left.
  - intros H. right. auto.
Qed.

Lemma elem_get k v m : NoDup (JsMap.keys m) → (k, v) ∈ m → JsMap.get k m = Some v.
Proof.
  induction m as [|[k' v'] m IH]; simpl.
  - intros _ H. by apply elem_of_nil in H.
  - rewrite NoDup_cons. intros [Hk' Hnd] [[= -> ->]|Hin]%elem_of_cons.
    + by rewrite decide_True.
    + rewrite decide_False; [auto|].
      intros ->. apply Hk'. unfold JsMap.keys.
      apply (list_elem_of_fmap_2 fst) in Hin. done.
Qed.

Lemma set_fresh k v m : JsMap.get k m = None → JsMap.set k v m = m ++ [(k, v)].
Proof.
  induction m as [|[k' v'] m IH]; simpl; [done|].
  destruct (decide (k' = k)); [done|]. intros H. by rewrite IH.
Qed.

Lemma keys_set_present k v m :
  is_Some (JsMap.get k m) → JsMap.keys (JsMap.set k v m) = JsMap.keys m.
Proof.
  induction m as [|[k' v'] m IH]; simpl.
  - by intros [? [=]].
  - destruct (decide (k' = k)) as [->|Hne]; simpl; [done|].
    intros H. by rewrite IH.
Qed.

Lemma NoDup_keys_set k v m :
  NoDup (JsMap.keys m) → NoDup (JsMap.keys (JsMap.set k v m)).
Proof.
  intros Hnd. destruct (JsMap.get k m) as [v0|] eqn:Hget.
  - by rewrite keys_set_present.
  - rewrite set_fresh by done. unfold JsMap.keys. rewrite map_app. simpl.
    apply NoDup_app. split; [done|]. split; [|apply NoDup_singleton].
    intros x Hx ->%list_elem_of_singleton. by apply get_None in Hget.
Qed.

Lemma elem_set k v k' v' m :
  (k', v') ∈ JsMap.set k v m → (k' = k ∧ v' = v) ∨ (k', v') ∈ m.
Proof.
  induction m as [|[k0 v0] m IH]; simpl.
  - intros [= -> ->]%list_elem_of_singleton. by left.
  - destruct (decide (k0 = k)) as [->|Hne].
    + intros [[= -> ->]|Hin]%elem_of_cons; [by left|]. right. by right.
    + intros [[= -> ->]|Hin]%elem_of_cons; [right; left|].
      destruct (IH Hin) as [?|?]; [by left|]. right. by right.
Qed.

End JsMapFacts.

(** ** The candidate of one target *)

Section Candidate.
Implicit Types (cur : option RecordedAction) (t : string)
  (l : list RecordedAction) (a b : RecordedAction).

Lemma pick_from_app cur t l1 l2 :
  pick_from cur t (l1 ++ l2) = pick_from (pick_from cur t l1) t l2.
Proof. revert cur. induction l1 as [|x l1 IH]; intros cur; simpl; auto. Qed.

Lemma pick_from_origin cur t l a :
  pick_from cur t l = Some a → cur = Some a ∨ (a ∈ l ∧ target a = t).
Proof.
  revert cur. induction l as [|x l IH]; intros cur; simpl; [by left|].
  intros [Hc|[Hin Ht]]%IH; [|right; split; [by right|done]].
  destruct (decide (target x = t)) as [Hx|]; [|by left].
  destruct (newer _ x); [|by left].
  injection Hc as ->. right. split; [left|done].
Qed.

Lemma pick_from_Some_ne cur t l : is_Some cur → is_Some (pick_from cur t l).
Proof.
  revert cur. induction l as [|x l IH]; intros cur Hc; simpl; [done|].
  apply IH. destruct (decide _); [|done]. by destruct (newer _ x).
Qed.

Lemma pick_from_None t l :
  pick_from None t l = None ↔ ∀ a, a ∈ l → target a ≠ t.
Proof.
  induction l as [|x l IH]; simpl.
  - split; [|done]. intros _ a Ha. by apply elem_of_nil in Ha.
  - destruct (decide (target x = t)) as [Hx|Hx].
    + split.
      * intros H. destruct (pick_from_Some_ne (Some x) t l) as [? Hs]; [done|].
        congruence.
      * intros H. destruct (H x); [left|done].
    + rewrite IH. split.
      * intros H a [->|Ha]%elem_of_cons; auto.
      * intros H a Ha. apply H. by right.
Qed.

Lemma pick_from_upper cur t l a :
  pick_from cur t l = Some a →
  (∀ b, b ∈ l → target b = t → timestamp b ≤ timestamp a)
  ∧ (∀ c, cur = Some c → timestamp c ≤ timestamp a).
Proof.
  revert cur. induction l as [|x l IH]; intros cur; simpl.
  - intros ->. split; [|by intros c [= ->]].
    intros b Hb. by apply elem_of_nil in Hb.
  - intros [Hl Hc]%IH. split.
    + intros b [->|Hb]%elem_of_cons Ht; [|by apply Hl].
      rewrite decide_True in Hc by done.
      destruct cur as [c|]; simpl in Hc.
      * case_bool_decide; [by apply Hc|].
        specialize (Hc c eq_refl). lia.
      * by apply Hc.
    + intros c ->. destruct (decide _); [|by apply Hc].
      simpl in Hc. case_bool_decide; [|by apply Hc].
      specialize (Hc x eq_refl). lia.
Qed.

Lemma pick_from_keep t l a :
  (∀ b, b ∈ l → target b = t → timestamp b ≤ timestamp a) →
  pick_from (Some a) t l = Some a.
Proof.
  induction l as [|x l IH]; intros H; simpl; [done|].
  assert (pick_from (Some a) t l = Some a) as Hl.
  { apply IH. intros b Hb. apply H. by right. }
  destruct (decide (target x = t)) as [Hx|]; [|done].
  rewrite bool_decide_false; [done|].
  specialize (H x (list_elem_of_here _ _) Hx). lia.
Qed.

Lemma first_latest_pick t l a : first_latest t l a → pick_from None t l = Some a.
Proof.
  intros (l1 & l2 & -> & Ht & Hbefore & Hafter).
  rewrite pick_from_app. simpl. rewrite decide_True by done.
  assert (newer (timestamp <$> pick_from None t l1) a = true) as ->.
  { destruct (pick_from None t l1) as [c|] eqn:Hc; [|done]. simpl.
    apply pick_from_origin in Hc as [[=]|[Hin Hc]].
    apply bool_decide_eq_true. specialize (Hbefore c Hin Hc). lia. }
  by apply pick_from_keep.
Qed.

Lemma pick_first_latest t l a : pick_from None t l = Some a → first_latest t l a.
Proof.
  revert a. induction l as [|x l IH] using rev_ind; intros a; [done|].
  rewrite pick_from_app. simpl.
  destruct (decide (target x = t)) as [Hx|Hx].
  - destruct (pick_from None t l) as [c|] eqn:Hc; simpl.
    + case_bool_decide as Hnew.
      * intros [= <-]. exists l, []. split_and!; [done..| |].
        -- intros b Hb Hbt. apply pick_from_upper in Hc as [Hup _].
           specialize (Hup b Hb Hbt). lia.
        -- intros b Hb. by apply elem_of_nil in Hb.
      * intros [= <-]. destruct (IH c eq_refl) as (l1 & l2 & -> & ? & ? & Haft).
        exists l1, (l2 ++ [x]). rewrite <- app_assoc. split_and!; [done..|].
        intros b [Hb| ->%list_elem_of_singleton]%elem_of_app Hbt; [by apply Haft|lia].
    + intros [= <-]. exists l, []. split_and!; [done..| |].
      * intros b Hb Hbt. by apply (proj1 (pick_from_None t l) Hc b) in Hb.
      * intros b Hb. by apply elem_of_nil in Hb.
  - intros Ha. destruct (IH a Ha) as (l1 & l2 & -> & ? & ? & Haft).
    exists l1, (l2 ++ [x]). rewrite <- app_assoc. split_and!; [done..|].
    intros b [Hb| ->%list_elem_of_singleton]%elem_of_app Hbt; [by apply Haft|done].
Qed.

Lemma first_latest_unique t l a b :
  first_latest t l a → first_latest t l b → a = b.
Proof. intros Ha%first_latest_pick Hb%first_latest_pick. congruence. Qed.

Lemma first_latest_elem t l a : first_latest t l a → a ∈ l ∧ target a = t.
Proof.
  intros (l1 & l2 & -> & Ht & _). split; [|done].
  apply elem_of_app. right. left.
Qed.

Lemma first_latest_exists t l b :
  b ∈ l → target b = t → ∃ a, first_latest t l a.
Proof.
  intros Hb Ht. destruct (pick_from None t l) as [a|] eqn:Hp.
  - exists a. by apply pick_first_latest.
  - by apply (proj1 (pick_from_None t l) Hp b) in Hb.
Qed.

Lemma first_latest_filter (P : RecordedAction → Prop) `{!∀ x, Decision (P x)}
    t l a :
  first_latest t l a → P a → first_latest t (filter P l) a.
Proof.
  intros (l1 & l2 & -> & Ht & Hbefore & Hafter) HP.
  exists (filter P l1), (filter P l2). split_and!; [|done|..].
  - by rewrite filter_app, filter_cons_True.
  - intros b [_ Hb]%list_elem_of_filter. by apply Hbefore.
  - intros b [_ Hb]%list_elem_of_filter. by apply Hafter.
Qed.

Lemma first_latest_NoDup l a :
  NoDup (target <$> l) → a ∈ l → first_latest (target a) l a.
Proof.
  intros Hnd (l1 & l2 & ->)%list_elem_of_split.
  rewrite fmap_app, fmap_cons in Hnd.
  apply NoDup_app in Hnd as (_ & Hdisj & [Hnot _]%NoDup_cons).
  exists l1, l2. split_and!; [done..| |].
  - intros b Hb Hbt. destruct (Hdisj (target b)).
    + by apply list_elem_of_fmap_2.
    + rewrite Hbt. left.
  - intros b Hb Hbt. destruct Hnot. rewrite <- Hbt. by apply list_elem_of_fmap_2.
Qed.

End Candidate.

(** ** The per-target reduction shared by the three loops *)

Section Reduction.
Context {V : Type} (at_ : V → Z) (mk : RecordedAction → V)
  (p : RecordedAction → bool).
Hypothesis at_mk : ∀ a, at_ (mk a) = timestamp a.

#[local] Abbreviation step := (reduce_step at_ mk p).

Lemma reduce_get t l : ∀ m cur,
  JsMap.get t m = mk <$> cur →
  JsMap.get t (fold_left step l m)
  = mk <$> pick_from cur t (filter (λ a, p a = true) l).
Proof.
  induction l as [|a l IH]; intros m cur Hm; simpl; [done|].
  unfold reduce_step at 2. destruct (p a) eqn:Hp.
  - rewrite filter_cons_True by done. simpl.
    destruct (decide (target a = t)) as [Ht|Ht].
    + rewrite Ht, Hm.
      assert (newer (at_ <$> (mk <$> cur)) a = newer (timestamp <$> cur) a) as ->.
      { destruct cur as [c|]; simpl; [|done]. by rewrite at_mk. }
      destruct (newer _ a); [|by apply IH].
      apply IH. simpl. apply get_set_eq.
    + destruct (newer _ a); [|by apply IH].
      apply IH. by rewrite get_set_ne.
  - rewrite filter_cons_False by (rewrite Hp; done). by apply IH.
Qed.

Lemma reduce_NoDup l : ∀ m,
  NoDup (JsMap.keys m) → NoDup (JsMap.keys (fold_left step l m)).
Proof.
  induction l as [|a l IH]; intros m Hm; simpl; [done|].
  apply IH. unfold reduce_step. destruct (p a); [|done].
  destruct (newer _ a); [|done]. by apply NoDup_keys_set.
Qed.

Lemma reduce_entries l : ∀ m k v,
  (k, v) ∈ fold_left step l m →
  (k, v) ∈ m ∨ ∃ a, a ∈ l ∧ p a = true ∧ k = target a ∧ v = mk a.
Proof.
  induction l as [|a l IH]; intros m k v; simpl; [by left|].
  intros [Hin|(b & Hb & ?)]%IH; [|right; exists b; split; [by right|done]].
  unfold reduce_step in Hin. destruct (p a) eqn:Hp; [|by left].
  destruct (newer _ a); [|by left].
  apply elem_set in Hin as [[-> ->]|?]; [|by left].
  right. exists a. split; [left|done].
Qed.

Lemma reduce_all l : ∀ m,
  NoDup (target <$> l) →
  (∀ a, a ∈ l → p a = true) →
  (∀ a, a ∈ l → target a ∉ JsMap.keys m) →
  fold_left step l m = m ++ ((λ a, (target a, mk a)) <$> l).
Proof.
  induction l as [|a l IH]; intros m Hnd Hp Hfresh; simpl.
  - by rewrite app_nil_r.
  - rewrite fmap_cons in Hnd. apply NoDup_cons in Hnd as [Ha Hnd].
    assert (JsMap.get (target a) m = None) as Hget.
    { apply get_None, Hfresh. left. }
    unfold reduce_step at 2. rewrite Hp by left. rewrite Hget. simpl.
    rewrite set_fresh by done. rewrite IH; [by rewrite <- app_assoc|done|..].
    + intros b Hb. apply Hp. by right.
    + intros b Hb. unfold JsMap.keys. rewrite map_app. simpl.
      rewrite elem_of_app, list_elem_of_singleton. intros [Hm|Heq].
      * by apply (Hfresh b); [right|].
      * apply Ha. rewrite <- Heq. by apply list_elem_of_fmap_2.
Qed.

End Reduction.

(** The three loop bodies are instances of [reduce_step]. *)

Lemma recordTargetState_reduce m a :
  recordTargetState m a
  = reduce_step TargetState.timestamp stateOf (λ _, true) m a.
Proof. done. Qed.

Lemma recordLastAction_reduce goal m a :
  recordLastAction goal (necessaryTargetsOf goal) m a
  = reduce_step timestamp id (traced goal) m a.
Proof.
  unfold recordLastAction, reduce_step, traced.
  case_bool_decide; simpl; [|done].
  destruct (shouldKeep goal a); [done|]. by destruct (newer _ a).
Qed.

Lemma recordUnique_reduce m a :
  recordUnique m a = reduce_step timestamp id (λ _, true) m a.
Proof. done. Qed.

Lemma fold_left_ext_all {A B} (f g : A → B → A) l x :
  (∀ y b, f y b = g y b) → fold_left f l x = fold_left g l x.
Proof.
  intros H. revert x. induction l as [|b l IH]; intros x; simpl; [done|].
  by rewrite H, IH.
Qed.

Lemma filter_true_id (l : list RecordedAction) :
  filter (λ _ : RecordedAction, true = true) l = l.
Proof.
  induction l as [|a l IH]; [done|]. by rewrite filter_cons_True, IH.
Qed.

(** ** Sorting by timestamp *)

Lemma sort_insert_perm a l : sort_insert a l ≡ₚ a :: l.
Proof.
  induction l as [|b l IH]; simpl; [done|].
  destruct (decide _); [done|]. rewrite IH. apply Permutation_swap.
Qed.

Lemma sort_perm l : sort_by_timestamp l ≡ₚ l.
Proof.
  induction l as [|a l IH]; simpl; [done|].
  by rewrite sort_insert_perm, IH.
Qed.

Lemma sort_insert_chronological a l :
  chronological l → chronological (sort_insert a l).
Proof.
  unfold chronological, compare_timestamps.
  induction 1 as [|b l Hl IH Hb]; simpl.
  - repeat constructor.
  - destruct (decide _) as [Hle|Hgt]; unfold compare_timestamps in *.
    + constructor; [by constructor|]. constructor; [lia|].
      eapply Forall_impl; [exact Hb|]. simpl. intros; lia.
    + constructor; [done|].
      rewrite (Forall_forall _ (sort_insert a l)). intros x Hx.
      rewrite sort_insert_perm in Hx.
      apply elem_of_cons in Hx as [->|Hx]; [lia|].
      by apply (proj1 (Forall_forall _ _) Hb).
Qed.

Lemma sort_chronological l : chronological (sort_by_timestamp l).
Proof.
  induction l as [|a l IH]; simpl; [constructor|].
  by apply sort_insert_chronological.
Qed.

Lemma sort_chronological_id l : chronological l → sort_by_timestamp l = l.
Proof.
  unfold chronological, compare_timestamps.
  induction 1 as [|a l Hl IH Ha]; simpl; [done|].
  rewrite IH. destruct Ha as [|b l' Hab _]; simpl; [done|].
  unfold compare_timestamps. rewrite decide_True; [done|lia].
Qed.

Lemma elem_of_sort a l : a ∈ sort_by_timestamp l ↔ a ∈ l.
Proof. by rewrite sort_perm. Qed.

(** ** The identity key of a record *)

Lemma append_cons c (s1 s2 : string) : String c s1 +:+ s2 = String c (s1 +:+ s2).
Proof. done. Qed.

Lemma append_empty (s : string) : "" +:+ s = s.
Proof. done. Qed.

Lemma append_assoc (s1 s2 s3 : string) : (s1 +:+ s2) +:+ s3 = s1 +:+ s2 +:+ s3.
Proof. induction s1 as [|c s1 IH]; [done|]. by rewrite !append_cons, IH. Qed.

Lemma no_dash_app s1 s2 : no_dash (s1 +:+ s2) = no_dash s1 && no_dash s2.
Proof.
  induction s1 as [|c s1 IH]; [done|].
  rewrite append_cons. simpl. by rewrite IH, andb_assoc.
Qed.

Lemma pretty_N_char_no_dash x : pretty_N_char x ≠ "-"%char.
Proof. unfold pretty_N_char. by repeat case_match. Qed.

Lemma pretty_N_go_digits x : ∀ s,
  ∃ d, pretty_N_go x s = d +:+ s ∧ no_dash d = true ∧ ((0 < x)%N → d ≠ "").
Proof.
  induction (N.lt_wf_0 x) as [x _ IH]; intros s.
  assert (x = 0 ∨ 0 < x)%N as [->|Hpos] by lia.
  - exists "". rewrite pretty_N_go_0. split_and!; [done..|lia].
  - rewrite pretty_N_go_step by done.
    destruct (IH (x `div` 10)%N (N.div_lt x 10 Hpos eq_refl)
                (String (pretty_N_char (x `mod` 10)) s)) as (d & -> & Hd & _).
    exists (d +:+ String (pretty_N_char (x `mod` 10)) "").
    split_and!.
    + by rewrite append_assoc.
    + rewrite no_dash_app, Hd. cbn.
      rewrite bool_decide_false by apply pretty_N_char_no_dash. done.
    + intros _. by destruct d.
Qed.

Lemma pretty_N_digits (x : N) :
  ∃ c d, pretty x = String c d ∧ c ≠ "-"%char ∧ no_dash d = true.
Proof.
  unfold pretty, pretty_N. case_decide as Hx.
  - exists "0"%char, "". done.
  - destruct (pretty_N_go_digits x "") as (d & -> & Hd & Hne).
    destruct d as [|c d]; [destruct Hne; [lia|done]|].
    exists c, (d +:+ ""). cbn in Hd. apply andb_true_iff in Hd as [Hc Hd].
    split_and!; [done| |].
    + apply negb_true_iff, bool_decide_eq_false in Hc. done.
    + by rewrite no_dash_app, Hd.
Qed.

Lemma split_at_dash d1 d2 r1 r2 :
  no_dash d1 = true → no_dash d2 = true →
  d1 +:+ "-" +:+ r1 = d2 +:+ "-" +:+ r2 → d1 = d2 ∧ r1 = r2.
Proof.
  revert d2. induction d1 as [|c d1 IH]; intros [|c' d2];
    rewrite ?append_cons, ?append_empty, ?append_cons, ?append_empty; simpl.
  - intros _ _ [= ->]. done.
  - intros _ [Hc _]%andb_true_iff [= <- _].
    by rewrite bool_decide_true in Hc.
  - intros [Hc _]%andb_true_iff _ [= -> _].
    by rewrite bool_decide_true in Hc.
  - intros [_ H1]%andb_true_iff [_ H2]%andb_true_iff [= -> Heq].
    destruct (IH d2 H1 H2 Heq) as [-> ->]. done.
Qed.

Lemma pretty_Z_key (z1 z2 : Z) (t1 t2 : string) :
  pretty z1 +:+ "-" +:+ t1 = pretty z2 +:+ "-" +:+ t2 → z1 = z2 ∧ t1 = t2.
Proof.
  assert (∀ z : Z, 0 ≤ z →
    ∃ c d, pretty z = String c d ∧ c ≠ "-"%char ∧ no_dash d = true) as Hnonneg.
  { intros [|x|x] Hz; [by exists "0"%char, ""| |lia].
    apply (pretty_N_digits (N.pos x)). }
  assert (∀ z : Z, z < 0 →
    ∃ c d, pretty z = String "-" (String c d) ∧ c ≠ "-"%char ∧ no_dash d = true)
    as Hneg.
  { intros [|x|x] Hz; [lia..|].
    destruct (pretty_N_digits (N.pos x)) as (c & d & Hp & ?).
    exists c, d. split; [|done]. unfold pretty, pretty_Z.
    change (pretty x) with (pretty (N.pos x)). by rewrite Hp. }
  assert (∀ c d, c ≠ "-"%char → no_dash d = true → no_dash (String c d) = true)
    as Hcons.
  { intros c d Hc Hd. cbn. by rewrite bool_decide_false, Hd. }
  intros Heq.
  destruct (Z_lt_le_dec z1 0) as [H1|H1], (Z_lt_le_dec z2 0) as [H2|H2].
  - destruct (Hneg z1 H1) as (c1 & d1 & E1 & ? & ?).
    destruct (Hneg z2 H2) as (c2 & d2 & E2 & ? & ?).
    rewrite E1, E2 in Heq. rewrite 2!(append_cons "-") in Heq.
    apply (f_equal (λ s, match s with String _ s' => s' | _ => s end)) in Heq.
    apply (split_at_dash (String c1 d1) (String c2 d2)) in Heq as [Hd ->];
      [|by apply Hcons..].
    split; [|done]. apply (inj pretty). by rewrite E1, E2, Hd.
  - destruct (Hneg z1 H1) as (c1 & d1 & E1 & ? & ?).
    destruct (Hnonneg z2 H2) as (c2 & d2 & E2 & ? & ?).
    rewrite E1, E2 in Heq. rewrite !append_cons in Heq. congruence.
  - destruct (Hnonneg z1 H1) as (c1 & d1 & E1 & ? & ?).
    destruct (Hneg z2 H2) as (c2 & d2 & E2 & ? & ?).
    rewrite E1, E2 in Heq. rewrite !append_cons in Heq. congruence.
  - destruct (Hnonneg z1 H1) as (c1 & d1 & E1 & ? & ?).
    destruct (Hnonneg z2 H2) as (c2 & d2 & E2 & ? & ?).
    rewrite E1, E2 in Heq.
    apply (split_at_dash (String c1 d1) (String c2 d2)) in Heq as [Hd ->];
      [|by apply Hcons..].
    split; [|done]. apply (inj pretty). by rewrite E1, E2, Hd.
Qed.

Lemma keyOf_inj a b :
  keyOf a = keyOf b → timestamp a = timestamp b ∧ target a = target b.
Proof. apply pretty_Z_key. Qed.

(** ** Goal deduction *)

Lemma targetStatesOf_reduce l :
  targetStatesOf l
  = fold_left (reduce_step TargetState.timestamp stateOf (λ _, true)) l [].
Proof. done. Qed.

Lemma targetStatesOf_get t l :
  JsMap.get t (targetStatesOf l) = stateOf <$> pick_from None t l.
Proof.
  rewrite targetStatesOf_reduce.
  rewrite (reduce_get TargetState.timestamp stateOf (λ _, true)
             (λ a, eq_refl) t l [] None) by done.
  by rewrite filter_true_id.
Qed.

Lemma targetStatesOf_NoDup l : NoDup (JsMap.keys (targetStatesOf l)).
Proof. rewrite targetStatesOf_reduce. apply reduce_NoDup. constructor. Qed.

Lemma classify_completed_one fs k st :
  FinalState.completedTasks (classify fs (k, st))
  = FinalState.completedTasks fs
    ++ (if completes k (TargetState.value st) then [k] else []).
Proof.
  unfold classify, completes. destruct (_ && _); simpl; [done|].
  rewrite app_nil_r. destruct (TargetState.value st); try done.
  by destruct (negb _).
Qed.

Lemma classify_form_one fs k st t :
  FinalState.formValues (classify fs (k, st)) !! t
  = if decide (k = t)
    then match settles t (TargetState.value st) with
         | Some s => Some s
         | None => FinalState.formValues fs !! t
         end
    else FinalState.formValues fs !! t.
Proof.
  unfold classify, settles, completes.
  destruct (decide (k = t)) as [->|Hne].
  - destruct (_ && _); simpl; [done|].
    destruct (TargetState.value st) as [|s|b]; try done.
    destruct (negb (bool_decide (trim s = ""))); simpl; [|done].
    unfold JsObject.assign. destruct (decide (t = "__proto__")) as [Hp|Hp].
    + by rewrite bool_decide_true.
    + rewrite bool_decide_false by done. simpl. apply lookup_insert_eq.
  - destruct (_ && _); simpl; [done|].
    destruct (TargetState.value st) as [|s|b]; try done.
    destruct (negb _); simpl; [|done].
    unfold JsObject.assign. destruct (decide _); [done|].
    by rewrite lookup_insert_ne.
Qed.

Lemma classify_timestamp_one fs e :
  FinalState.timestamp (classify fs e) = FinalState.timestamp fs.
Proof.
  destruct e as [k st]. unfold classify. destruct (_ && _); simpl; [done|].
  destruct (TargetState.value st); try done. by destruct (negb _).
Qed.

Lemma classify_timestamp m : ∀ fs,
  FinalState.timestamp (fold_left classify m fs) = FinalState.timestamp fs.
Proof.
  induction m as [|e m IH]; intros fs; cbn [fold_left]; [done|].
  by rewrite IH, classify_timestamp_one.
Qed.

Lemma classify_completed m t : ∀ fs,
  t ∈ FinalState.completedTasks (fold_left classify m fs)
  ↔ t ∈ FinalState.completedTasks fs
    ∨ ∃ st, (t, st) ∈ m ∧ completes t (TargetState.value st) = true.
Proof.
  induction m as [|[k st] m IH]; intros fs; cbn [fold_left].
  - split; [by left|]. intros [?|(st & Hin & _)]; [done|].
    by apply elem_of_nil in Hin.
  - rewrite IH, classify_completed_one, elem_of_app. split.
    + intros [[?|Hk]|(st' & Hin & Hc)].
      * by left.
      * destruct (completes k _) eqn:Hc; [|by apply elem_of_nil in Hk].
        apply list_elem_of_singleton in Hk as ->.
        right. exists st. split; [left|done].
      * right. exists st'. split; [by right|done].
    + intros [?|(st' & [[= -> ->]|Hin]%elem_of_cons & Hc)].
      * left. by left.
      * left. right. rewrite Hc. left.
      * right. by exists st'.
Qed.

Lemma classify_form m t : ∀ fs,
  NoDup (JsMap.keys m) →
  FinalState.formValues (fold_left classify m fs) !! t
  = match JsMap.get t m ≫= (λ st, settles t (TargetState.value st)) with
    | Some s => Some s
    | None => FinalState.formValues fs !! t
    end.
Proof.
  induction m as [|[k st] m IH]; intros fs Hnd; cbn [fold_left]; [done|].
  apply NoDup_cons in Hnd as [Hk Hnd].
  rewrite IH by done. rewrite classify_form_one. simpl.
  destruct (decide (k = t)) as [->|Hne]; simpl; [|done].
  apply (get_None t m) in Hk. rewrite Hk. simpl. by destruct (settles _ _).
Qed.

Lemma classify_now m : ∀ c f n n',
  fold_left classify m (FinalState.mk c f n)
  = FinalState.mk
      (FinalState.completedTasks (fold_left classify m (FinalState.mk c f n')))
      (FinalState.formValues (fold_left classify m (FinalState.mk c f n')))
      n.
Proof.
  induction m as [|[k st] m IH]; intros c f n n'; simpl; [done|].
  destruct (_ && _); [apply IH|].
  destruct (TargetState.value st); try apply IH.
  destruct (negb _); apply IH.
Qed.

Lemma deduceGoal_completed now l t :
  t ∈ FinalState.completedTasks (deduceGoal now l)
  ↔ ∃ a, pick_from None t l = Some a ∧ completes t (value a) = true.
Proof.
  unfold deduceGoal. rewrite classify_completed. simpl. split.
  - intros [Hin|(st & Hin & Hc)]; [by apply elem_of_nil in Hin|].
    apply elem_get in Hin; [|apply targetStatesOf_NoDup].
    rewrite targetStatesOf_get in Hin.
    destruct (pick_from None t l) as [a|]; [|done].
    injection Hin as <-. by exists a.
  - intros (a & Ha & Hc). right. exists (stateOf a). split; [|done].
    apply get_Some_elem. by rewrite targetStatesOf_get, Ha.
Qed.

Lemma deduceGoal_form now l t :
  FinalState.formValues (deduceGoal now l) !! t
  = pick_from None t l ≫= (λ a, settles t (value a)).
Proof.
  unfold deduceGoal. rewrite classify_form by apply targetStatesOf_NoDup.
  rewrite targetStatesOf_get. simpl.
  destruct (pick_from None t l) as [a|]; simpl; [|done].
  by destruct (settles _ _).
Qed.

(** ** Backward tracing and noise pruning *)

Lemma filter_all {A} (P : A → Prop) `{!∀ x, Decision (P x)} (l : list A) :
  (∀ x, x ∈ l → P x) → filter P l = l.
Proof.
  induction l as [|x l IH]; intros Hall; [done|].
  rewrite filter_cons_True by (apply Hall; left).
  rewrite IH; [done|]. intros y Hy. apply Hall. by right.
Qed.

Lemma values_of_entries (l : list RecordedAction) :
  JsMap.values ((λ a, (target a, id a)) <$> l) = l.
Proof.
  unfold JsMap.values. induction l as [|a l IH]; simpl; [done|]. by f_equal.
Qed.

Lemma keys_of_values (m : list (string * RecordedAction)) :
  (∀ k v, (k, v) ∈ m → k = target v) →
  target <$> JsMap.values m = JsMap.keys m.
Proof.
  induction m as [|[k v] m IH]; intros H; simpl; [done|].
  rewrite <- (H k v) by left. f_equal. apply IH.
  intros k' v' Hin. apply H. by right.
Qed.

Section Selection.
Context (p : RecordedAction → bool) (l : list RecordedAction).

#[local] Abbreviation table := (selected p l).

Lemma selected_get t :
  JsMap.get t table = pick_from None t (filter (λ a, p a = true) l).
Proof.
  unfold selected.
  rewrite (reduce_get timestamp id p (λ a, eq_refl) t l [] None) by done.
  apply option_fmap_id.
Qed.

Lemma selected_entries k v : (k, v) ∈ table → k = target v ∧ v ∈ l ∧ p v = true.
Proof.
  intros [Hin|(a & Ha & Hp & -> & ->)]%reduce_entries; [|done].
  by apply elem_of_nil in Hin.
Qed.

Lemma selected_NoDup : NoDup (target <$> JsMap.values table).
Proof.
  rewrite keys_of_values.
  - apply reduce_NoDup. constructor.
  - intros k v Hin. by apply selected_entries in Hin as [-> _].
Qed.

Lemma selected_values r :
  r ∈ JsMap.values table ↔ JsMap.get (target r) table = Some r.
Proof.
  split.
  - intros ([k v] & -> & Hin)%list_elem_of_fmap. simpl.
    destruct (selected_entries _ _ Hin) as [-> _].
    apply elem_get; [|done]. apply reduce_NoDup. constructor.
  - intros Hin%get_Some_elem. by apply (list_elem_of_fmap_2 snd) in Hin.
Qed.

Lemma selected_all :
  NoDup (target <$> l) → (∀ a, a ∈ l → p a = true) →
  JsMap.values table = l.
Proof.
  intros Hnd Hp. unfold selected. rewrite reduce_all; [|done..|].
  - apply values_of_entries.
  - intros a _. apply not_elem_of_nil.
Qed.

End Selection.

Lemma traceBackward_selected l goal :
  traceBackward l goal
  = sort_by_timestamp (JsMap.values (selected (traced goal) l)).
Proof.
  unfold traceBackward, selected. do 2 f_equal.
  apply fold_left_ext_all, recordLastAction_reduce.
Qed.

Lemma pruneNoise_selected l keep :
  pruneNoise l keep
  = sort_by_timestamp
      (JsMap.values
         (selected (λ _, true)
            (filter (λ a, keyOf a ∈@{gset string} list_to_set (keyOf <$> keep))
               l))).
Proof. done. Qed.

Lemma elem_of_traceBackward l goal a :
  a ∈ traceBackward l goal
  ↔ pick_from None (target a) (filter (λ b, traced goal b = true) l) = Some a.
Proof.
  by rewrite traceBackward_selected, elem_of_sort, selected_values, selected_get.
Qed.

Lemma elem_of_pruneNoise l keep a :
  a ∈ pruneNoise l keep
  ↔ pick_from None (target a)
      (filter (λ b, keyOf b ∈@{gset string} list_to_set (keyOf <$> keep)) l)
    = Some a.
Proof.
  rewrite pruneNoise_selected, elem_of_sort, selected_values, selected_get.
  by rewrite filter_true_id.
Qed.

Lemma pruneNoise_NoDup l keep : NoDup (target <$> pruneNoise l keep).
Proof.
  rewrite pruneNoise_selected.
  rewrite (fmap_Permutation target _ _ (sort_perm _)).
  apply selected_NoDup.
Qed.

(** ** Records that are their own goal *)

Lemma settles_Some t v s : settles t v = Some s → v = VString s.
Proof.
  unfold settles. destruct (completes t v); [done|].
  destruct v as [|s'|b]; try done. destruct (_ && _); [|done]. by intros [= ->].
Qed.

Lemma elem_of_necessaryTargetsOf goal t :
  t ∈ necessaryTargetsOf goal
  ↔ t ∈ FinalState.completedTasks goal
    ∨ is_Some (FinalState.formValues goal !! t).
Proof.
  unfold necessaryTargetsOf.
  by rewrite elem_of_union, elem_of_list_to_set, elem_of_dom.
Qed.

(** A necessary target has a retained record, and that record carries a
    terminal value. *)
Lemma necessary_pick now l t :
  t ∈ necessaryTargetsOf (deduceGoal now l) →
  ∃ g, pick_from None t l = Some g
       ∧ (completes t (value g) = true ∨ is_Some (settles t (value g))).
Proof.
  rewrite elem_of_necessaryTargetsOf, deduceGoal_completed, deduceGoal_form.
  intros [(g & Hg & Hc)|Hs].
  - exists g. split; [done|by left].
  - destruct (pick_from None t l) as [g|]; [|by destruct Hs].
    exists g. split; [done|by right].
Qed.

(** A retained record that is its own goal passes the guard of
    [traceBackward]. *)
Lemma settled_traced now l g :
  pick_from None (target g) l = Some g → settled g = true →
  traced (deduceGoal now l) g = true.
Proof.
  intros Hg Hs. unfold settled in Hs. unfold traced, shouldKeep.
  apply orb_true_iff in Hs as [[Hc Hty]%andb_true_iff|[Hst Hty]%andb_true_iff].
  - assert (target g ∈ FinalState.completedTasks (deduceGoal now l)) as Hin.
    { apply deduceGoal_completed. by exists g. }
    assert (target g ∈ necessaryTargetsOf (deduceGoal now l)) as Hnec.
    { apply elem_of_necessaryTargetsOf. by left. }
    by rewrite Hty, (bool_decide_eq_true_2 _ Hnec), (bool_decide_eq_true_2 _ Hin).
  - apply bool_decide_eq_true in Hst as [s Hst].
    assert (FinalState.formValues (deduceGoal now l) !! target g = Some s) as Hf.
    { by rewrite deduceGoal_form, Hg. }
    assert (target g ∈ necessaryTargetsOf (deduceGoal now l)) as Hnec.
    { apply elem_of_necessaryTargetsOf. right. by rewrite Hf. }
    rewrite Hty, (bool_decide_eq_true_2 _ Hnec). unfold JsObject.read.
    rewrite Hf, (settles_Some _ _ _ Hst). simpl.
    rewrite (bool_decide_eq_true_2 (s = s) eq_refl). apply orb_true_r.
Qed.

Lemma terminal_settled t g :
  target g = t → kind_agrees g →
  completes t (value g) = true ∨ is_Some (settles t (value g)) →
  settled g = true.
Proof.
  intros <- Hk Hg. unfold settled, kind_agrees in *. destruct Hg as [Hc|Hs].
  - rewrite Hc. unfold completes in Hc.
    apply andb_true_iff in Hc as [_ Hv%bool_decide_eq_true].
    rewrite Hv in Hk. by rewrite (bool_decide_eq_true_2 _ Hk).
  - destruct Hs as [s Hs]. pose proof (settles_Some _ _ _ Hs) as Hv.
    rewrite Hv in Hk. rewrite (bool_decide_eq_true_2 (is_Some _) (mk_is_Some _ _ Hs)).
    rewrite (bool_decide_eq_true_2 _ Hk). apply orb_true_r.
Qed.

(** With kinds that agree with the values, what [processRecording] returns
    for a target is the record retained by [deduceGoal]. *)
Lemma processRecording_retained now l r :
  Forall kind_agrees l → r ∈ processRecording now l →
  pick_from None (target r) l = Some r ∧ settled r = true.
Proof.
  intros Hl. unfold processRecording.
  destruct (decide _); [by intros ?%elem_of_nil|].
  set (goal := deduceGoal now l). set (keep := traceBackward l goal).
  intros Hr%elem_of_pruneNoise.
  pose proof Hr as [[=]|[Hin _]]%pick_from_origin.
  apply list_elem_of_filter in Hin as [Hkey _].
  apply elem_of_list_to_set, list_elem_of_fmap in Hkey as (s & Hkey & Hs).
  apply keyOf_inj in Hkey as [_ Htarget].
  apply elem_of_traceBackward in Hs.
  pose proof Hs as [[=]|[[Htr _]%list_elem_of_filter _]]%pick_from_origin.
  apply andb_true_iff in Htr as [Hnec%bool_decide_eq_true _].
  rewrite <- Htarget in Hnec.
  destruct (necessary_pick _ _ _ Hnec) as (g & Hg & Hterm).
  pose proof Hg as [[=]|[Hgl Hgt]]%pick_from_origin.
  assert (settled g = true) as Hsettled.
  { apply (terminal_settled (target r)); [done| |done].
    by apply (proj1 (Forall_forall _ _) Hl). }
  assert (traced goal g = true) as Htraced.
  { apply settled_traced; [|done]. by rewrite Hgt. }
  assert (g ∈ keep) as Hkeep.
  { apply elem_of_traceBackward. rewrite Hgt.
    apply first_latest_pick, first_latest_filter; [|done].
    by apply pick_first_latest. }
  assert (pick_from None (target r)
            (filter (λ b, keyOf b ∈@{gset string} list_to_set (keyOf <$> keep)) l)
          = Some g) as Hg'.
  { apply first_latest_pick, first_latest_filter; [by apply pick_first_latest|].
    apply elem_of_list_to_set. by apply list_elem_of_fmap_2. }
  rewrite Hr in Hg'. injection Hg' as ->. done.
Qed.

(** A script of settled records, one per target and in chronological order,
    is returned as it is. *)
Lemma settled_fixed now l :
  NoDup (target <$> l) → chronological l →
  (∀ r, r ∈ l → settled r = true) →
  processRecording now l = l.
Proof.
  intros Hnd Hsorted Hsettled. unfold processRecording.
  destruct (decide _) as [Hlen|_]; [by destruct l|].
  assert (traceBackward l (deduceGoal now l) = l) as ->.
  { rewrite traceBackward_selected, selected_all; [|done|].
    - by apply sort_chronological_id.
    - intros a Ha. apply settled_traced; [|by apply Hsettled].
      by apply first_latest_pick, first_latest_NoDup. }
  rewrite pruneNoise_selected, filter_all.
  - rewrite selected_all; [|done..]. by apply sort_chronological_id.
  - intros a Ha. apply elem_of_list_to_set. by apply list_elem_of_fmap_2.
Qed.

(** ** The wall clock *)

Lemma deduceGoal_clock now now' l :
  deduceGoal now l
  = FinalState.mk (FinalState.completedTasks (deduceGoal now' l))
      (FinalState.formValues (deduceGoal now' l)) now.
Proof. unfold deduceGoal. apply classify_now. Qed.

Lemma traceBackward_clock l c f n n' :
  traceBackward l (FinalState.mk c f n) = traceBackward l (FinalState.mk c f n').
Proof. reflexivity. Qed.

(** ** Kinds are not read by goal deduction *)

Lemma recordTargetState_payload m a b :
  same_payload a b → recordTargetState m a = recordTargetState m b.
Proof.
  intros (Ht & Hv & Hts). unfold recordTargetState, newer.
  by rewrite Ht, Hv, Hts.
Qed.

Lemma targetStatesOf_payload l1 l2 :
  Forall2 same_payload l1 l2 → targetStatesOf l1 = targetStatesOf l2.
Proof.
  unfold targetStatesOf. generalize (@nil (string * TargetState.t)).
  intros m H. revert m. induction H as [|a b l1 l2 Hab _ IH]; intros m; simpl.
  - done.
  - by rewrite (recordTargetState_payload m a b Hab), IH.
Qed.

Lemma blank_value_dropped t v :
  blank_value v → completes t v = false ∧ settles t v = None.
Proof.
  unfold settles, completes.
  destruct v as [|s|[]]; simpl; try done; rewrite andb_false_r.
  - done.
  - intros Hs. by rewrite (bool_decide_eq_true_2 _ Hs).
  - done.
Qed.

(** * The claims *)

(** ** C1: the record retained by goal deduction *)

(** Counterexample to C1 as stated. The claim lets the record encountered
    later win when two records of a target share their [recordedAt]; in
    [tie_log] that record is the second write, and the table keeps the
    first. *)
Lemma C1_tie_keeps_earlier_record :
  ¬ (∀ l t a, spec_last_latest t l a →
       JsMap.get t (targetStatesOf l) = Some (stateOf a)).
Proof.
  intros H.
  specialize (H tie_log "email" (input "email" "second" 7)).
  assert (spec_last_latest "email" tie_log (input "email" "second" 7)) as Hlast.
  { exists [input "email" "first" 7], []. split_and!; [done..| |].
    - intros b ->%list_elem_of_singleton _. simpl. lia.
    - intros b Hb. by apply elem_of_nil in Hb. }
  specialize (H Hlast). vm_compute in H. discriminate H.
Qed.

(** Claim C1, amended. For every log and every target that occurs in it,
    the entry that goal deduction retains for the target is that of the
    record with the greatest [recordedAt], and of the first such record of
    the log when several share that [recordedAt]: a record replaces the
    retained one only when it is strictly newer. *)
Theorem C1_deduceGoal_retains_first_latest
    (l : list RecordedAction) (t : string) (b : RecordedAction) :
  b ∈ l → target b = t →
  ∃ a, first_latest t l a ∧ JsMap.get t (targetStatesOf l) = Some (stateOf a).
Proof.
  intros Hb Ht. destruct (first_latest_exists t l b Hb Ht) as [a Ha].
  exists a. split; [done|].
  by rewrite targetStatesOf_get, (first_latest_pick _ _ _ Ha).
Qed.

Lemma C1_witness :
  ∃ a, first_latest "email" tie_log a
       ∧ JsMap.get "email" (targetStatesOf tie_log) = Some (stateOf a).
Proof.
  apply (C1_deduceGoal_retains_first_latest tie_log "email"
           (input "email" "second" 7)).
  - right. left.
  - reflexivity.
Defined.

(** ** C2: the stored form value *)

(** Counterexample to C2 as stated: the value stored for the field of
    [padded_log] keeps its surrounding blanks; and a field named
    [__proto__] gets no entry at all. *)
Lemma C2_stored_value_is_not_trimmed :
  FinalState.formValues (deduceGoal 0 padded_log) !! "name" = Some " Bob "
  ∧ trim " Bob " = "Bob"
  ∧ FinalState.formValues (deduceGoal 0 padded_log) !! "name"
    ≠ Some (trim " Bob ")
  ∧ FinalState.formValues (deduceGoal 0 proto_log) !! "__proto__" = None.
Proof.
  split_and!; [by vm_compute..| |by vm_compute]. vm_compute. discriminate.
Qed.

(** Claim C2, amended. For every log, when the value retained for a target
    other than [__proto__] is a string that is non-empty after trimming,
    the form values of the Terminal State map the target to that string as
    it was recorded, untrimmed. *)
Theorem C2_formValues_keeps_recorded_string
    (now : Z) (l : list RecordedAction) (t : string) (st : TargetState.t)
    (s : string) :
  JsMap.get t (targetStatesOf l) = Some st →
  TargetState.value st = VString s →
  trim s ≠ "" →
  t ≠ "__proto__" →
  FinalState.formValues (deduceGoal now l) !! t = Some s.
Proof.
  intros Hget Hv Hs Hproto. rewrite deduceGoal_form.
  rewrite targetStatesOf_get in Hget.
  destruct (pick_from None t l) as [a|]; [|done].
  injection Hget as <-. simpl in *. rewrite Hv. unfold settles, completes.
  rewrite andb_false_r.
  by rewrite (bool_decide_eq_false_2 _ Hs), (bool_decide_eq_false_2 _ Hproto).
Qed.

Lemma C2_witness :
  FinalState.formValues (deduceGoal 0 padded_log) !! "name" = Some " Bob ".
Proof.
  apply (C2_formValues_keeps_recorded_string 0 padded_log "name"
           (stateOf (input "name" " Bob " 1)) " Bob ").
  - reflexivity.
  - reflexivity.
  - vm_compute. discriminate.
  - discriminate.
Defined.

(** The one target that never gets a form value. *)
Lemma deduceGoal_proto now l :
  FinalState.formValues (deduceGoal now l) !! "__proto__" = None.
Proof.
  rewrite deduceGoal_form. destruct (pick_from None _ l) as [a|]; [|done].
  simpl. unfold settles. destruct (completes _ _); [done|].
  destruct (value a); try done. by rewrite andb_false_r.
Qed.

(** ** C3: malformed records *)

(** Counterexample to C3 as stated: a click that carries [true] completes
    its task, and a toggle that carries a string sets a form value. *)
Lemma C3_malformed_record_contributes :
  malformed click_true = true
  ∧ "task-1" ∈ FinalState.completedTasks (deduceGoal 0 [click_true])
  ∧ malformed toggle_text = true
  ∧ FinalState.formValues (deduceGoal 0 [toggle_text]) !! "name" = Some "Bob".
Proof. split_and!; [done|by left|done|by vm_compute]. Qed.

(** Claim C3, amended. Goal deduction is total and never reads the kind of
    a record: two logs whose records agree, one by one, on target, value and
    [recordedAt] yield the same Terminal State, so a malformed record
    contributes what a well-formed record of the same target and value
    does. A target whose retained value is absent, boolean [false] or a
    string that is empty after trimming is neither in completed-tasks nor
    in form-values. *)
Theorem C3_deduceGoal_ignores_kind
    (now : Z) (l1 l2 : list RecordedAction) :
  Forall2 same_payload l1 l2 →
  deduceGoal now l1 = deduceGoal now l2
  ∧ ∀ t st, JsMap.get t (targetStatesOf l1) = Some st →
      blank_value (TargetState.value st) →
      (t ∉ FinalState.completedTasks (deduceGoal now l1))
      ∧ FinalState.formValues (deduceGoal now l1) !! t = None.
Proof.
  intros Hl. split.
  - unfold deduceGoal. by rewrite (targetStatesOf_payload l1 l2 Hl).
  - intros t st Hget Hblank.
    rewrite targetStatesOf_get in Hget.
    destruct (pick_from None t l1) as [a|] eqn:Ha; [|done].
    injection Hget as <-. simpl in Hblank.
    destruct (blank_value_dropped t _ Hblank) as [Hc Hs]. split.
    + rewrite deduceGoal_completed. intros (a' & Ha' & Hc'). congruence.
    + by rewrite deduceGoal_form, Ha.
Qed.

Lemma C3_witness :
  deduceGoal 0 [click_true] = deduceGoal 0 [toggle "task-1" true 10]
  ∧ ∀ t st, JsMap.get t (targetStatesOf [click_true]) = Some st →
      blank_value (TargetState.value st) →
      (t ∉ FinalState.completedTasks (deduceGoal 0 [click_true]))
      ∧ FinalState.formValues (deduceGoal 0 [click_true]) !! t = None.
Proof.
  apply (C3_deduceGoal_ignores_kind 0 [click_true] [toggle "task-1" true 10]).
  constructor; [|constructor]. unfold same_payload. simpl. auto.
Defined.

(** ** C4: refining a refined script *)

(** Counterexample to C4 as stated: [off_then_click] refines to the
    switched-off toggle alone, and refining that script again yields the
    empty script. The same happens when a string is carried by a click:
    [click_then_input] refines to the click alone, which no second pass
    keeps. *)
Lemma C4_refining_twice_differs :
  processRecording 0 off_then_click = [toggle "task-1" false 5]
  ∧ processRecording 0 (processRecording 0 off_then_click) = []
  ∧ processRecording 0 (processRecording 0 off_then_click)
    ≠ processRecording 0 off_then_click
  ∧ processRecording 0 click_then_input
    = [mkAction "click" "name" (VString "Bob") 1]
  ∧ processRecording 0 (processRecording 0 click_then_input) = [].
Proof.
  split_and!;
    [by vm_compute|by vm_compute| |by vm_compute|by vm_compute].
  vm_compute. discriminate.
Qed.

(** Claim C4, amended. For every log in which boolean [true] is carried
    only by state-toggle records and strings only by text-input records
    (every log of well-formed records is one), refining the Refined Script
    again yields exactly the same sequence of records, whatever the clock
    readings of the two runs. *)
Theorem C4_refined_script_is_fixed_point
    (now1 now2 : Z) (l : list RecordedAction) :
  Forall kind_agrees l →
  processRecording now2 (processRecording now1 l) = processRecording now1 l.
Proof.
  intros Hl. apply settled_fixed.
  - unfold processRecording. destruct (decide _); [constructor|].
    apply pruneNoise_NoDup.
  - unfold processRecording. destruct (decide _); [constructor|].
    apply sort_chronological.
  - intros r Hr. by apply (processRecording_retained now1 l r Hl).
Qed.

Lemma C4_witness :
  processRecording 2 (processRecording 1 scenarioD) = processRecording 1 scenarioD.
Proof.
  apply (C4_refined_script_is_fixed_point 1 2 scenarioD).
  repeat constructor.
Defined.

(** ** C5: records that fail the goal-match test *)

(** Claim C5. In backward tracing a record that fails the goal-match test
    leaves the table of best candidates as it was, so a log ending in such a
    record is traced like the log without it; and [scenarioC] refines to
    its record of time 3 alone. *)
Theorem C5_failed_match_keeps_candidate
    (goal : FinalState.t) (necessaryTargets : gset string)
    (targetToLastAction : list (string * RecordedAction))
    (action : RecordedAction) :
  shouldKeep goal action = false →
  recordLastAction goal necessaryTargets targetToLastAction action
  = targetToLastAction
  ∧ (∀ l, traceBackward (l ++ [action]) goal = traceBackward l goal)
  ∧ (∀ now, processRecording now scenarioC = [input "name" "Bob" 3]).
Proof.
  intros Hfail.
  assert (∀ nec m, recordLastAction goal nec m action = m) as Hskip.
  { intros nec m. unfold recordLastAction. rewrite Hfail.
    destruct (bool_decide _); [|done]. by destruct (newer _ action). }
  split_and!.
  - apply Hskip.
  - intros l. unfold traceBackward. rewrite fold_left_app. simpl.
    by rewrite Hskip.
  - intros now. unfold processRecording.
    rewrite decide_False by done.
    rewrite (deduceGoal_clock now 0). by vm_compute.
Qed.

Lemma C5_witness :
  recordLastAction (deduceGoal 0 scenarioC)
    (necessaryTargetsOf (deduceGoal 0 scenarioC))
    [("name", input "name" "Bob" 1)] (input "name" "Bob and Alice" 2)
  = [("name", input "name" "Bob" 1)]
  ∧ (∀ l, traceBackward (l ++ [input "name" "Bob and Alice" 2])
            (deduceGoal 0 scenarioC)
          = traceBackward l (deduceGoal 0 scenarioC))
  ∧ (∀ now, processRecording now scenarioC = [input "name" "Bob" 3]).
Proof.
  apply (C5_failed_match_keeps_candidate (deduceGoal 0 scenarioC)
           (necessaryTargetsOf (deduceGoal 0 scenarioC))
           [("name", input "name" "Bob" 1)] (input "name" "Bob and Alice" 2)).
  vm_compute. reflexivity.
Defined.

(** ** C6: target uniqueness *)

(** Claim C6. For every log, no two records of the Refined Script share
    their target. *)
Theorem C6_refined_targets_unique (now : Z) (l : list RecordedAction) :
  NoDup (target <$> processRecording now l).
Proof.
  unfold processRecording. destruct (decide _); [constructor|].
  apply pruneNoise_NoDup.
Qed.

(** ** C7: chronological ordering *)

(** Claim C7. For every log, the Refined Script is sorted ascending by
    [recordedAt]. *)
Theorem C7_refined_script_chronological (now : Z) (l : list RecordedAction) :
  chronological (processRecording now l).
Proof.
  unfold processRecording. destruct (decide _); [constructor|].
  apply sort_chronological.
Qed.

(** ** C8: the orchestrator does not depend on the clock *)

(** Claim C8. The Refined Script is a function of the log alone: two runs
    on the same log return the same script whatever the wall clock reads
    when each builds its Terminal State. *)
Theorem C8_processRecording_deterministic
    (now1 now2 : Z) (l : list RecordedAction) :
  processRecording now1 l = processRecording now2 l.
Proof.
  unfold processRecording. destruct (decide _); [done|].
  rewrite (deduceGoal_clock now1 0), (deduceGoal_clock now2 0).
  by rewrite (traceBackward_clock l _ _ now1 now2).
Qed.

(** ** C9: the Terminal State and the clock *)

(** Counterexample to C9 as stated: two runs of goal deduction on
    [scenarioC] at different clock readings return Terminal States that
    differ in their timestamp field. *)
Lemma C9_timestamp_field_differs :
  deduceGoal 1000 scenarioC ≠ deduceGoal 2000 scenarioC.
Proof.
  intros H. apply (f_equal FinalState.timestamp) in H.
  unfold deduceGoal in H. rewrite !classify_timestamp in H. discriminate H.
Qed.

(** Claim C9, amended. Two runs of goal deduction on the same log return
    Terminal States with the same completed-tasks and the same form-values;
    the timestamp field of each is the reading of the wall clock at its
    run. *)
Theorem C9_deduceGoal_deterministic_up_to_clock
    (now1 now2 : Z) (l : list RecordedAction) :
  FinalState.completedTasks (deduceGoal now1 l)
  = FinalState.completedTasks (deduceGoal now2 l)
  ∧ FinalState.formValues (deduceGoal now1 l)
    = FinalState.formValues (deduceGoal now2 l)
  ∧ FinalState.timestamp (deduceGoal now1 l) = now1
  ∧ FinalState.timestamp (deduceGoal now2 l) = now2.
Proof.
  split_and!.
  - by rewrite (deduceGoal_clock now1 now2 l).
  - by rewrite (deduceGoal_clock now1 now2 l).
  - unfold deduceGoal. by rewrite classify_timestamp.
  - unfold deduceGoal. by rewrite classify_timestamp.
Qed.

(** ** C10: toggles are matched by target alone *)

(** Claim C10. The goal-match test of a state-toggle record is membership
    of its target in completed-tasks, whatever value the record carries;
    and [off_then_click], a toggle with value [false] at time 5 followed by
    a click carrying [true] at time 10 on a task, refines to a script that
    holds the toggle with value [false]. *)
Theorem C10_toggle_matched_by_target_alone :
  (∀ goal t v at_,
     shouldKeep goal (mkAction "toggle" t v at_)
     = bool_decide (t ∈ FinalState.completedTasks goal))
  ∧ (∀ now, processRecording now off_then_click = [toggle "task-1" false 5])
  ∧ (∀ now, ∃ r, r ∈ processRecording now off_then_click
               ∧ type r = "toggle" ∧ value r = VBoolean false).
Proof.
  assert (∀ now, processRecording now off_then_click = [toggle "task-1" false 5])
    as Hrun.
  { intros now. unfold processRecording. rewrite decide_False by done.
    rewrite (deduceGoal_clock now 0). by vm_compute. }
  split_and!; [|done|].
  - intros goal t v at_. unfold shouldKeep. simpl. apply orb_false_r.
  - intros now. exists (toggle "task-1" false 5). rewrite Hrun.
    split_and!; [left|done..].
Qed.

(** ** The scenarios of the specification *)

Example scenarioA_refined :
  processRecording 0 scenarioA = [toggle "task-1" true 10].
Proof. by vm_compute. Qed.

Example scenarioB_refined : processRecording 0 scenarioB = [].
Proof. by vm_compute. Qed.

Example scenarioD_refined :
  processRecording 0 scenarioD
  = [toggle "task-1" true 1; input "name" "Alice" 4].
Proof. by vm_compute. Qed.

Example empty_refined : processRecording 0 [] = [].
Proof. done. Qed.

(** * Further properties of the engine *)

(** ** What the stages keep *)

Lemma traceBackward_elem l goal a :
  a ∈ traceBackward l goal →
  a ∈ l ∧ target a ∈ necessaryTargetsOf goal ∧ shouldKeep goal a = true.
Proof.
  intros Ha%elem_of_traceBackward.
  apply pick_from_origin in Ha as [[=]|[[Htr Hin]%list_elem_of_filter _]].
  apply andb_true_iff in Htr as [Hnec%bool_decide_eq_true Hkeep]. done.
Qed.

Lemma traceBackward_NoDup l goal : NoDup (target <$> traceBackward l goal).
Proof.
  rewrite traceBackward_selected.
  rewrite (fmap_Permutation target _ _ (sort_perm _)).
  apply selected_NoDup.
Qed.

Lemma pruneNoise_elem l keep r :
  r ∈ pruneNoise l keep →
  r ∈ l ∧ ∃ s, s ∈ keep ∧ timestamp s = timestamp r ∧ target s = target r.
Proof.
  intros Hr%elem_of_pruneNoise.
  apply pick_from_origin in Hr as [[=]|[[Hkey Hin]%list_elem_of_filter _]].
  split; [done|].
  apply elem_of_list_to_set, list_elem_of_fmap in Hkey as (s & Hkey & Hs).
  apply keyOf_inj in Hkey as [Hts Htg]. by exists s.
Qed.

Lemma NoDup_targets (l : list RecordedAction) : NoDup (target <$> l) → NoDup l.
Proof. apply NoDup_fmap_1. Qed.

Lemma processRecording_elem now l r :
  r ∈ processRecording now l →
  r ∈ l ∧ target r ∈ necessaryTargetsOf (deduceGoal now l).
Proof.
  unfold processRecording. destruct (decide _); [by intros ?%elem_of_nil|].
  intros [Hin (s & Hs & _ & Htg)]%pruneNoise_elem. split; [done|].
  apply traceBackward_elem in Hs as (_ & Hnec & _). by rewrite <- Htg.
Qed.

(** X1. Every record of the Refined Script is a record of the raw log, and
    its target is a necessary target of the deduced goal. *)
Theorem X1_refined_records_come_from_log (now : Z) (l : list RecordedAction) :
  processRecording now l ⊆ l
  ∧ Forall (λ r, target r ∈ necessaryTargetsOf (deduceGoal now l))
      (processRecording now l).
Proof.
  split.
  - intros r Hr. by apply processRecording_elem in Hr as [? _].
  - apply Forall_forall. intros r Hr. by apply processRecording_elem in Hr as [_ ?].
Qed.

(** X2. The Refined Script is never longer than the raw log. *)
Theorem X2_refined_script_not_longer (now : Z) (l : list RecordedAction) :
  (length (processRecording now l) ≤ length l)%nat.
Proof.
  apply submseteq_length, NoDup_submseteq.
  - apply NoDup_targets. unfold processRecording.
    destruct (decide _); [constructor|]. apply pruneNoise_NoDup.
  - intros r Hr. by apply processRecording_elem in Hr as [? _].
Qed.

(** X3. Whatever the goal, the Keep-List of backward tracing holds records
    of the log that pass the goal-match test on necessary targets, at most
    one per target, in chronological order. *)
Theorem X3_keep_list_invariants (l : list RecordedAction) (goal : FinalState.t) :
  Forall (λ a, a ∈ l ∧ target a ∈ necessaryTargetsOf goal
               ∧ shouldKeep goal a = true) (traceBackward l goal)
  ∧ NoDup (target <$> traceBackward l goal)
  ∧ chronological (traceBackward l goal).
Proof.
  split_and!.
  - apply Forall_forall. intros a Ha. by apply traceBackward_elem.
  - apply traceBackward_NoDup.
  - unfold traceBackward. apply sort_chronological.
Qed.

(** X4. The Keep-List holds, for each target, exactly the first record of
    greatest timestamp among the records of the log that are on a necessary
    target and pass the goal-match test. *)
Theorem X4_keep_list_selection
    (l : list RecordedAction) (goal : FinalState.t) (a : RecordedAction) :
  a ∈ traceBackward l goal
  ↔ first_latest (target a) (filter (λ b, traced goal b = true) l) a.
Proof.
  rewrite elem_of_traceBackward. split.
  - apply pick_first_latest.
  - apply first_latest_pick.
Qed.

(** X5. Whatever the Keep-List, noise pruning returns records of the raw
    log, each with the timestamp and target of some record of the Keep-List,
    at most one per target, in chronological order. *)
Theorem X5_pruneNoise_invariants (l keep : list RecordedAction) :
  Forall (λ r, r ∈ l ∧ ∃ s, s ∈ keep ∧ timestamp s = timestamp r
                            ∧ target s = target r) (pruneNoise l keep)
  ∧ NoDup (target <$> pruneNoise l keep)
  ∧ chronological (pruneNoise l keep).
Proof.
  split_and!.
  - apply Forall_forall. intros r Hr. by apply pruneNoise_elem.
  - apply pruneNoise_NoDup.
  - unfold pruneNoise. apply sort_chronological.
Qed.

(** ** Noise pruning as a re-selection *)

Lemma NoDup_fmap_eq {A B} (f : A → B) (l : list A) x y :
  NoDup (f <$> l) → x ∈ l → y ∈ l → f x = f y → x = y.
Proof.
  induction l as [|z l IH]; simpl; [by intros _ ?%elem_of_nil|].
  rewrite NoDup_cons. intros [Hz Hnd].
  intros [->|Hx]%elem_of_cons [->|Hy]%elem_of_cons Heq; [done|..|by apply IH].
  - destruct Hz. rewrite Heq. by apply list_elem_of_fmap_2.
  - destruct Hz. rewrite <- Heq. by apply list_elem_of_fmap_2.
Qed.

Lemma pruneNoise_keeps l goal s :
  s ∈ traceBackward l goal →
  ∃ r, r ∈ pruneNoise l (traceBackward l goal) ∧ target r = target s.
Proof.
  intros Hs. pose proof (traceBackward_elem _ _ _ Hs) as (Hin & _).
  set (keep := traceBackward l goal) in *.
  destruct (pick_from None (target s)
              (filter (λ b, keyOf b ∈@{gset string} list_to_set (keyOf <$> keep)) l))
    as [r|] eqn:Hr.
  - pose proof Hr as [[=]|[_ Htg]]%pick_from_origin.
    exists r. split; [|done]. apply elem_of_pruneNoise. by rewrite Htg.
  - destruct (proj1 (pick_from_None _ _) Hr s); [|done].
    apply list_elem_of_filter. split; [|done].
    apply elem_of_list_to_set. by apply list_elem_of_fmap_2.
Qed.

(** X6. When no two records of the log share both target and timestamp,
    noise pruning re-selects the Keep-List of backward tracing: its result
    holds the same records. *)
Theorem X6_pruneNoise_reselects_keep_list
    (l : list RecordedAction) (goal : FinalState.t) :
  identity_unique l →
  pruneNoise l (traceBackward l goal) ≡ₚ traceBackward l goal.
Proof.
  intros Huniq.
  assert (∀ r, r ∈ pruneNoise l (traceBackward l goal) →
               r ∈ traceBackward l goal) as Hsub.
  { intros r [Hin (s & Hs & Hts & Htg)]%pruneNoise_elem.
    pose proof (traceBackward_elem _ _ _ Hs) as (Hsl & _).
    by rewrite <- (Huniq s r Hsl Hin Htg Hts). }
  apply NoDup_Permutation.
  - apply NoDup_targets, pruneNoise_NoDup.
  - apply NoDup_targets, traceBackward_NoDup.
  - intros r. split; [apply Hsub|]. intros Hr.
    destruct (pruneNoise_keeps l goal r Hr) as (r' & Hr' & Htg).
    rewrite <- (NoDup_fmap_eq target _ r' r (traceBackward_NoDup l goal)
                  (Hsub r' Hr') Hr Htg). done.
Qed.

Lemma NoDup_identity_unique (l : list RecordedAction) :
  NoDup ((λ a, (target a, timestamp a)) <$> l) → identity_unique l.
Proof.
  intros Hnd a b Ha Hb Htg Hts.
  apply (NoDup_fmap_eq (λ a, (target a, timestamp a)) l a b Hnd Ha Hb).
  by rewrite Htg, Hts.
Qed.

Lemma X6_witness :
  pruneNoise scenarioD (traceBackward scenarioD (deduceGoal 0 scenarioD))
  ≡ₚ traceBackward scenarioD (deduceGoal 0 scenarioD).
Proof.
  apply (X6_pruneNoise_reselects_keep_list scenarioD (deduceGoal 0 scenarioD)).
  apply NoDup_identity_unique. apply (bool_decide_unpack _). vm_compute. exact I.
Defined.

(** ** The content of the Refined Script *)

Lemma retained_settled_is_refined now l r :
  first_latest (target r) l r → settled r = true → r ∈ processRecording now l.
Proof.
  intros Hfl Hs. pose proof (first_latest_elem _ _ _ Hfl) as [Hin _].
  unfold processRecording. destruct (decide _) as [Hlen|_].
  { destruct l; [by apply elem_of_nil in Hin|done]. }
  assert (r ∈ traceBackward l (deduceGoal now l)) as Hkeep.
  { apply elem_of_traceBackward, first_latest_pick, first_latest_filter; [done|].
    apply settled_traced; [|done]. by apply first_latest_pick. }
  apply elem_of_pruneNoise, first_latest_pick, first_latest_filter; [done|].
  apply elem_of_list_to_set. by apply list_elem_of_fmap_2.
Qed.

(** X7. A record that is the first of greatest timestamp for its target and
    is its own goal (boolean [true] carried by a toggle on a task, or a
    non-blank string carried by an input on a target other than
    [__proto__]) is in the Refined Script, whatever else the log holds. *)
Theorem X7_settled_retained_record_is_kept
    (now : Z) (l : list RecordedAction) (r : RecordedAction) :
  first_latest (target r) l r → settled r = true →
  r ∈ processRecording now l.
Proof. apply retained_settled_is_refined. Qed.

Lemma X7_witness : input "name" "Bob" 3 ∈ processRecording 0 scenarioC.
Proof.
  apply (X7_settled_retained_record_is_kept 0 scenarioC (input "name" "Bob" 3)).
  - exists [input "name" "Bob" 1; input "name" "Bob and Alice" 2], [].
    split_and!; [reflexivity|reflexivity| |].
    + intros b Hb _. apply elem_of_cons in Hb as [->|Hb]; [simpl; lia|].
      apply list_elem_of_singleton in Hb as ->. simpl. lia.
    + intros b Hb. by apply elem_of_nil in Hb.
  - reflexivity.
Defined.

(** X8. For a log in which boolean [true] is carried only by toggles and
    strings only by inputs, the Refined Script holds exactly the records
    that are the first of greatest timestamp for their target and are their
    own goal. *)
Theorem X8_refined_script_content
    (now : Z) (l : list RecordedAction) (r : RecordedAction) :
  Forall kind_agrees l →
  (r ∈ processRecording now l
   ↔ first_latest (target r) l r ∧ settled r = true).
Proof.
  intros Hl. split.
  - intros [Hp Hs]%(processRecording_retained now l r Hl).
    split; [by apply pick_first_latest|done].
  - intros [Hfl Hs]. by apply retained_settled_is_refined.
Qed.

Lemma X8_witness :
  toggle "task-2" false 5 ∈ processRecording 0 scenarioD
  ↔ first_latest "task-2" scenarioD (toggle "task-2" false 5)
    ∧ settled (toggle "task-2" false 5) = true.
Proof.
  apply (X8_refined_script_content 0 scenarioD (toggle "task-2" false 5)).
  repeat constructor.
Defined.

(** X9. When the value retained for every target is absent, boolean
    [false] or a string that is empty after trimming, the Refined Script is
    empty. *)
Theorem X9_blank_session_refines_to_nothing
    (now : Z) (l : list RecordedAction) :
  (∀ t st, JsMap.get t (targetStatesOf l) = Some st →
           blank_value (TargetState.value st)) →
  processRecording now l = [].
Proof.
  intros Hblank. destruct (processRecording now l) as [|r rs] eqn:Hout; [done|].
  assert (r ∈ processRecording now l) as Hr by (rewrite Hout; left).
  apply processRecording_elem in Hr as [_ Hnec].
  destruct (necessary_pick _ _ _ Hnec) as (g & Hg & Hterm).
  assert (blank_value (value g)) as Hb.
  { apply (Hblank (target r) (stateOf g)). by rewrite targetStatesOf_get, Hg. }
  destruct (blank_value_dropped (target r) _ Hb) as [Hc Hs].
  destruct Hterm as [Hterm|[s Hterm]]; congruence.
Qed.

Lemma X9_witness : processRecording 0 scenarioB = [].
Proof.
  apply (X9_blank_session_refines_to_nothing 0 scenarioB).
  intros t st. rewrite targetStatesOf_get.
  destruct (decide (t = "email")) as [->|Hne].
  - intros [= <-]. reflexivity.
  - simpl. rewrite !decide_False by done. discriminate.
Defined.

(** ** The shape of the Terminal State *)

Lemma classify_completed_sublist m : ∀ fs,
  ∃ ks, FinalState.completedTasks (fold_left classify m fs)
        = FinalState.completedTasks fs ++ ks
        ∧ ks `sublist_of` JsMap.keys m.
Proof.
  induction m as [|[k st] m IH]; intros fs; cbn [fold_left].
  - exists []. by rewrite app_nil_r.
  - destruct (IH (classify fs (k, st))) as (ks & -> & Hsub).
    rewrite classify_completed_one.
    destruct (completes k _).
    + exists (k :: ks). split; [by rewrite <- app_assoc|]. by apply sublist_skip.
    + exists ks. split; [by rewrite app_nil_r|]. by apply sublist_cons.
Qed.

(** X10. The completed tasks of the Terminal State are listed once each,
    every one starts with [task-], and none of them has a form value. *)
Theorem X10_completed_tasks_shape (now : Z) (l : list RecordedAction) :
  NoDup (FinalState.completedTasks (deduceGoal now l))
  ∧ Forall (λ t, startsWith "task-" t = true
                 ∧ FinalState.formValues (deduceGoal now l) !! t = None)
      (FinalState.completedTasks (deduceGoal now l)).
Proof.
  split.
  - unfold deduceGoal.
    destruct (classify_completed_sublist (targetStatesOf l)
                (FinalState.mk [] ∅ now)) as (ks & -> & Hsub).
    simpl. apply (sublist_NoDup _ _ (targetStatesOf_NoDup l) Hsub).
  - apply Forall_forall. intros t (a & Ha & Hc)%deduceGoal_completed.
    split.
    + unfold completes in Hc. by apply andb_true_iff in Hc as [? _].
    + rewrite deduceGoal_form, Ha. simpl. unfold settles. by rewrite Hc.
Qed.

(** X11. Every form value of the Terminal State is a string that is
    non-empty after trimming, stored under a key other than [__proto__], and
    it is the value carried by a record of that target in the log. *)
Theorem X11_form_values_shape (now : Z) (l : list RecordedAction) :
  map_Forall (λ t s, trim s ≠ "" ∧ t ≠ "__proto__"
                     ∧ ∃ a, a ∈ l ∧ target a = t ∧ value a = VString s)
    (FinalState.formValues (deduceGoal now l)).
Proof.
  intros t s. rewrite deduceGoal_form.
  destruct (pick_from None t l) as [a|] eqn:Ha; [|done]. simpl. intros Hs.
  pose proof (settles_Some _ _ _ Hs) as Hv.
  apply pick_from_origin in Ha as [[=]|[Hin Htg]].
  unfold settles in Hs. destruct (completes t (value a)); [done|].
  rewrite Hv in Hs.
  destruct (bool_decide (trim s = "")) eqn:Ht; [done|].
  destruct (bool_decide (t = "__proto__")) eqn:Hp; [done|].
  apply bool_decide_eq_false in Ht, Hp. split_and!; [done..|]. by exists a.
Qed.

(** ** Logs in strict chronological order *)

Lemma strictly_chronological_snoc l x :
  strictly_chronological (l ++ [x]) →
  strictly_chronological l ∧ ∀ a, a ∈ l → timestamp a < timestamp x.
Proof.
  unfold strictly_chronological. intros (Hlt & Hl & _)%StronglySorted_app.
  split; [done|]. intros a Ha. apply Hlt; [done|left].
Qed.

Lemma pick_from_last t l :
  strictly_chronological l →
  pick_from None t l = last (filter (λ a, target a = t) l).
Proof.
  induction l as [|x l IH] using rev_ind; intros Hl; [done|].
  apply strictly_chronological_snoc in Hl as [Hl Hx].
  rewrite pick_from_app, filter_app, (IH Hl). simpl.
  destruct (decide (target x = t)) as [Ht|Ht].
  - rewrite filter_cons_True by done. rewrite filter_nil, last_snoc.
    destruct (last _) as [c|] eqn:Hc; [|done]. simpl.
    rewrite bool_decide_true; [done|].
    apply last_Some_elem_of, list_elem_of_filter in Hc as [_ Hc].
    specialize (Hx c Hc). lia.
  - rewrite filter_cons_False by done. by rewrite filter_nil, app_nil_r.
Qed.

(** X12. In a log whose timestamps strictly increase, the entry retained
    for a target is that of the last record of the target: the last write
    wins. *)
Theorem X12_last_write_wins (l : list RecordedAction) (t : string) :
  strictly_chronological l →
  JsMap.get t (targetStatesOf l)
  = stateOf <$> last (filter (λ a, target a = t) l).
Proof. intros Hl. by rewrite targetStatesOf_get, pick_from_last. Qed.

Lemma X12_witness :
  JsMap.get "name" (targetStatesOf scenarioC)
  = stateOf <$> last (filter (λ a, target a = "name") scenarioC).
Proof.
  apply (X12_last_write_wins scenarioC "name").
  unfold strictly_chronological, scenarioC.
  repeat constructor; simpl; lia.
Defined.

(** ** The identity key *)

(** X13. The key [`${timestamp}-${target}`] that noise pruning compares
    identifies a record by its timestamp and its target: two records have
    the same key exactly when they agree on both. *)
Theorem X13_key_identifies_timestamp_and_target (a b : RecordedAction) :
  keyOf a = keyOf b ↔ timestamp a = timestamp b ∧ target a = target b.
Proof.
  split.
  - apply keyOf_inj.
  - intros [Hts Htg]. unfold keyOf. by rewrite Hts, Htg.
Qed.

(** * The descriptive summary *)

Lemma describeAction_phrase d a :
  describeAction d a = d ++ option_list (phrase a).
Proof.
  unfold describeAction, phrase, fills_field, completes_task.
  destruct (_ && bool_decide (value a = VBoolean true)); simpl; [done|].
  destruct (_ && is_string (value a)); simpl; [done|]. by rewrite app_nil_r.
Qed.

Lemma array_from_set_snoc xs x :
  array_from_set (xs ++ [x]) = set_add (array_from_set xs) x.
Proof. unfold array_from_set. by rewrite fold_left_app. Qed.

(** The unique descriptions, computed record by record. *)
Lemma unique_descriptions l : ∀ d,
  array_from_set (fold_left describeAction l d)
  = fold_left (λ s a, from_option (set_add s) s (phrase a)) l (array_from_set d).
Proof.
  induction l as [|a l IH]; intros d; cbn [fold_left]; [done|].
  rewrite IH, describeAction_phrase. f_equal.
  destruct (phrase a) as [x|]; simpl.
  - apply array_from_set_snoc.
  - by rewrite app_nil_r.
Qed.

Lemma elem_of_set_add s x y : y ∈ set_add s x ↔ y ∈ s ∨ y = x.
Proof.
  unfold set_add. destruct (decide (x ∈ s)).
  - split; [by left|]. by intros [?| ->].
  - by rewrite elem_of_app, list_elem_of_singleton.
Qed.

Lemma elem_of_unique_fold l : ∀ s y,
  y ∈ fold_left (λ s a, from_option (set_add s) s (phrase a)) l s
  ↔ y ∈ s ∨ ∃ a, a ∈ l ∧ phrase a = Some y.
Proof.
  induction l as [|a l IH]; intros s y; cbn [fold_left].
  - split; [by left|]. intros [?|(a & Ha & _)]; [done|].
    by apply elem_of_nil in Ha.
  - rewrite IH. split.
    + intros [Hy|(b & Hb & Hp)].
      * destruct (phrase a) as [x|] eqn:Hpa; simpl in Hy; [|by left].
        apply elem_of_set_add in Hy as [?| ->]; [by left|].
        right. exists a. split; [left|done].
      * right. exists b. split; [by right|done].
    + intros [Hy|(b & [->|Hb]%elem_of_cons & Hp)].
      * left. destruct (phrase a); simpl; [|done].
        apply elem_of_set_add. by left.
      * left. rewrite Hp. simpl. apply elem_of_set_add. by right.
      * right. by exists b.
Qed.

Lemma phrase_lists_step s a :
  s ∈ phrase_lists → from_option (set_add s) s (phrase a) ∈ phrase_lists.
Proof.
  intros Hs. unfold phrase.
  destruct (completes_task a); [|destruct (fills_field a)]; simpl; [| |done].
  - unfold phrase_lists in *. set_unfold.
    destruct Hs as [->|[->|[->|[->|[->|[]]]]]]; vm_compute; tauto.
  - unfold phrase_lists in *. set_unfold.
    destruct Hs as [->|[->|[->|[->|[->|[]]]]]]; vm_compute; tauto.
Qed.

Lemma unique_in_phrase_lists l :
  array_from_set (fold_left describeAction l []) ∈ phrase_lists.
Proof.
  rewrite unique_descriptions.
  assert (array_from_set [] ∈ phrase_lists) as H0 by left.
  revert H0. generalize (array_from_set []).
  induction l as [|a l IH]; intros s Hs; cbn [fold_left]; [done|].
  by apply IH, phrase_lists_step.
Qed.

Lemma elem_of_unique l y :
  y ∈ array_from_set (fold_left describeAction l [])
  ↔ ∃ a, a ∈ l ∧ phrase a = Some y.
Proof.
  rewrite unique_descriptions, elem_of_unique_fold. split; [|by right].
  intros [Hy|?]; [|done]. by apply elem_of_nil in Hy.
Qed.

Lemma describeTask_nonempty l :
  l ≠ [] →
  ∃ u, u ∈ phrase_lists
       ∧ (∀ y, y ∈ u ↔ ∃ a, a ∈ l ∧ phrase a = Some y)
       ∧ describeTask l
         = match u with
           | [] => "Perform actions"
           | [d] => d
           | _ => join " and " u
           end.
Proof.
  intros Hl. exists (array_from_set (fold_left describeAction l [])).
  split_and!; [apply unique_in_phrase_lists|apply elem_of_unique|].
  unfold describeTask. rewrite decide_False by (by destruct l).
  by destruct (array_from_set _) as [|d [|d' u]].
Qed.

Lemma phrase_complete a : phrase a = Some "complete a task" ↔ completes_task a = true.
Proof.
  unfold phrase. destruct (completes_task a); [done|].
  by destruct (fills_field a).
Qed.

Lemma phrase_None a :
  phrase a = None ↔ completes_task a = false ∧ fills_field a = false.
Proof.
  unfold phrase.
  destruct (completes_task a), (fills_field a); split; try done; by intros [].
Qed.

(** Case analysis on membership in a literal list, and its converse. *)
Ltac list_cases H :=
  repeat (apply elem_of_cons in H as [->|H]); [..|by apply elem_of_nil in H].
Ltac list_member := repeat (first [by left | right]).
Ltac list_absurd H :=
  repeat (apply elem_of_cons in H as [H|H]; [discriminate H|]);
  by apply elem_of_nil in H.

Lemma describeTask_perform l :
  l ≠ [] →
  (describeTask l = "Perform actions" ↔ ∀ a, a ∈ l → phrase a = None).
Proof.
  intros Hl. destruct (describeTask_nonempty l Hl) as (u & Hu & Hin & ->).
  unfold phrase_lists in Hu. list_cases Hu.
  - split; [|done]. intros _ a Ha.
    destruct (phrase a) as [y|] eqn:Hy; [|done].
    assert (y ∈ @nil string) as Hnil by (apply Hin; by exists a).
    by apply elem_of_nil in Hnil.
  - split; [done|]. intros Hnone.
    destruct (proj1 (Hin "complete a task")) as (a & Ha & Hp); [by left|].
    rewrite (Hnone a Ha) in Hp. done.
  - split; [done|]. intros Hnone.
    destruct (proj1 (Hin "fill a form field")) as (a & Ha & Hp); [by left|].
    rewrite (Hnone a Ha) in Hp. done.
  - split; [done|]. intros Hnone.
    destruct (proj1 (Hin "complete a task")) as (a & Ha & Hp); [by left|].
    rewrite (Hnone a Ha) in Hp. done.
  - split; [done|]. intros Hnone.
    destruct (proj1 (Hin "complete a task")) as (a & Ha & Hp); [by right; left|].
    rewrite (Hnone a Ha) in Hp. done.
Qed.

(** X14. The summary is always one of six phrases. *)
Theorem X14_describeTask_range (l : list RecordedAction) :
  describeTask l ∈ summaries.
Proof.
  destruct l as [|a l]; [left|].
  destruct (describeTask_nonempty (a :: l)) as (u & Hu & _ & ->); [done|].
  unfold phrase_lists in Hu. list_cases Hu; vm_compute; list_member.
Qed.

(** X15. The summary is [No actions recorded] exactly for the empty
    script. *)
Theorem X15_describeTask_empty (l : list RecordedAction) :
  describeTask l = "No actions recorded" ↔ l = [].
Proof.
  split; [|by intros ->].
  destruct l as [|a l]; [done|]. intros Heq.
  destruct (describeTask_nonempty (a :: l)) as (u & Hu & _ & Hd); [done|].
  rewrite Heq in Hd. unfold phrase_lists in Hu. list_cases Hu; discriminate.
Qed.

(** X16. For a non-empty script the summary is [Perform actions] exactly
    when no record is a toggle carrying [true] or an input carrying a
    string. *)
Theorem X16_describeTask_perform_actions (l : list RecordedAction) :
  l ≠ [] →
  (describeTask l = "Perform actions"
   ↔ ∀ a, a ∈ l → completes_task a = false ∧ fills_field a = false).
Proof.
  intros Hl. rewrite (describeTask_perform l Hl).
  split; intros H a Ha; apply phrase_None; by apply H.
Qed.

Lemma X16_witness :
  describeTask [toggle "task-1" false 5] = "Perform actions"
  ↔ ∀ a, a ∈ [toggle "task-1" false 5] →
         completes_task a = false ∧ fills_field a = false.
Proof.
  apply (X16_describeTask_perform_actions [toggle "task-1" false 5]).
  discriminate.
Defined.

(** X17. The summary names the completion of a task exactly when some
    record of the script is a toggle carrying [true]. *)
Theorem X17_describeTask_names_task (l : list RecordedAction) :
  describeTask l ∈ task_summaries
  ↔ ∃ a, a ∈ l ∧ type a = "toggle" ∧ value a = VBoolean true.
Proof.
  assert (∀ a, completes_task a = true
               ↔ type a = "toggle" ∧ value a = VBoolean true) as Hct.
  { intros a. unfold completes_task.
    by rewrite andb_true_iff, !bool_decide_eq_true. }
  destruct l as [|a0 l].
  { split.
    - intros H. vm_compute in H. list_absurd H.
    - intros (a & Ha & _). by apply elem_of_nil in Ha. }
  destruct (describeTask_nonempty (a0 :: l)) as (u & Hu & Hin & ->); [done|].
  transitivity ("complete a task" ∈ u).
  - unfold phrase_lists in Hu. list_cases Hu; vm_compute.
    + split; intros H; list_absurd H.
    + split; intros _; list_member.
    + split; intros H; list_absurd H.
    + split; intros _; list_member.
    + split; intros _; list_member.
  - rewrite Hin. split.
    + intros (a & Ha & Hp%phrase_complete%Hct). by exists a.
    + intros (a & Ha & Hp%Hct%phrase_complete). by exists a.
Qed.

Lemma settled_phrase r : settled r = true → phrase r ≠ None.
Proof.
  unfold settled. intros [[Hc Hty]%andb_true_iff|[Hs Hty]%andb_true_iff]%orb_true_iff.
  - unfold completes in Hc. apply andb_true_iff in Hc as [_ Hv].
    unfold phrase, completes_task. by rewrite Hty, Hv.
  - apply bool_decide_eq_true in Hs as [s Hs%settles_Some].
    unfold phrase, fills_field, completes_task. rewrite Hs, Hty. simpl.
    apply bool_decide_eq_true in Hty. rewrite Hty. done.
Qed.

(** X18. For a log in which boolean [true] is carried only by toggles and
    strings only by inputs, the summary of the Refined Script is never
    [Perform actions]: every record of a refined script contributes a
    phrase. *)
Theorem X18_refined_script_is_described
    (now : Z) (l : list RecordedAction) :
  Forall kind_agrees l →
  describeTask (processRecording now l) ≠ "Perform actions".
Proof.
  intros Hl. destruct (processRecording now l) as [|r rs] eqn:Hout; [done|].
  rewrite describeTask_perform by done. intros Hnone.
  assert (r ∈ processRecording now l) as Hr by (rewrite Hout; left).
  apply (processRecording_retained now l r Hl) in Hr as [_ Hs].
  apply (settled_phrase r Hs), Hnone. left.
Qed.

Lemma X18_witness :
  describeTask (processRecording 0 scenarioD) ≠ "Perform actions".
Proof.
  apply (X18_refined_script_is_described 0 scenarioD). repeat constructor.
Defined.

(** * The teaching session of the component *)

Lemma record_while_teaching acts : ∀ s,
  App.isTeaching s = true →
  fold_left App.handleRecordAction acts s
  = App.setRecordedActions (App.recordedActions s ++ acts) s.
Proof.
  induction acts as [|a acts IH]; intros s Hs; cbn [fold_left].
  - rewrite app_nil_r. by destruct s.
  - rewrite IH.
    + unfold App.handleRecordAction. rewrite Hs.
      unfold App.setRecordedActions. simpl. by rewrite <- app_assoc.
    + unfold App.handleRecordAction. by rewrite Hs.
Qed.

Lemma record_while_idle acts : ∀ s,
  App.isTeaching s = false → fold_left App.handleRecordAction acts s = s.
Proof.
  induction acts as [|a acts IH]; intros s Hs; cbn [fold_left]; [done|].
  unfold App.handleRecordAction at 2. rewrite Hs. by apply IH.
Qed.

(** X19. Recorded actions accumulate in order while the component is
    teaching, and are ignored, leaving the state as it is, when it is not. *)
Theorem X19_recording_accumulates
    (acts : list RecordedAction) (s : App.State) :
  fold_left App.handleRecordAction acts s
  = if App.isTeaching s
    then App.setRecordedActions (App.recordedActions s ++ acts) s
    else s.
Proof.
  destruct (App.isTeaching s) eqn:Hs.
  - by apply record_while_teaching.
  - by apply record_while_idle.
Qed.

Lemma teach_recorded acts s :
  fold_left App.handleRecordAction acts (App.handleStartTeaching s)
  = App.setRecordedActions acts (App.handleStartTeaching s).
Proof. by rewrite record_while_teaching. Qed.

Lemma length_pos_nonempty {A} (l : list A) :
  (0 <? length l)%nat = negb (bool_decide (l = [])).
Proof. by destruct l. Qed.

Lemma session_recorded_and_timers now acts s :
  App.recordedActions (App.teach now acts s).1
  = (if bool_decide (processRecording now acts = []) then acts
     else processRecording now acts)
  ∧ (App.teach now acts s).2
    = (if bool_decide (processRecording now acts = []) then []
       else [App.mkTimer App.RevealSuggestion 500]).
Proof.
  unfold App.teach. rewrite teach_recorded. unfold App.handleFinishTeaching.
  cbn [App.recordedActions App.setRecordedActions].
  rewrite !length_pos_nonempty.
  destruct acts as [|a acts]; [done|].
  rewrite (bool_decide_eq_false_2 (a :: acts = [])) by done.
  cbn [negb]. by destruct (bool_decide (processRecording now (a :: acts) = [])).
Qed.

(** X20. A teaching session (start, record the actions, finish) leaves the
    component not teaching, with the number of recorded actions as raw
    count. When the Refined Script is non-empty it replaces the recorded
    actions and the suggestion is scheduled; when it is empty the recorded
    actions stay as they were and no timer is set. *)
Theorem X20_session_outcome
    (now : Z) (acts : list RecordedAction) (s : App.State) :
  App.isTeaching (App.teach now acts s).1 = false
  ∧ App.rawActionCount (App.teach now acts s).1 = length acts
  ∧ App.recordedActions (App.teach now acts s).1
    = (if bool_decide (processRecording now acts = []) then acts
       else processRecording now acts)
  ∧ (App.teach now acts s).2
    = (if bool_decide (processRecording now acts = []) then []
       else [App.mkTimer App.RevealSuggestion 500]).
Proof.
  unfold App.teach. rewrite teach_recorded. unfold App.handleFinishTeaching.
  cbn [App.recordedActions App.setRecordedActions].
  rewrite !length_pos_nonempty.
  destruct acts as [|a acts]; [done|].
  rewrite (bool_decide_eq_false_2 (a :: acts = [])) by done.
  cbn [negb]. by destruct (bool_decide (processRecording now (a :: acts) = [])).
Qed.

(** X21. After a teaching session the number of actions kept in the state,
    which the component displays as the refined count, never exceeds the raw
    count. *)
Theorem X21_refined_count_within_raw_count
    (now : Z) (acts : list RecordedAction) (s : App.State) :
  (length (App.recordedActions (App.teach now acts s).1)
   ≤ App.rawActionCount (App.teach now acts s).1)%nat.
Proof.
  assert (length (processRecording now acts) ≤ length acts)%nat as Hlen.
  { apply submseteq_length, NoDup_submseteq.
    - apply NoDup_targets. unfold processRecording.
      destruct (decide _); [constructor|]. apply pruneNoise_NoDup.
    - intros r Hr. by apply processRecording_elem in Hr as [? _]. }
  unfold App.teach. rewrite teach_recorded. unfold App.handleFinishTeaching.
  cbn [App.recordedActions App.setRecordedActions].
  rewrite !length_pos_nonempty.
  destruct acts as [|a acts]; [done|].
  rewrite (bool_decide_eq_false_2 (a :: acts = [])) by done.
  cbn [negb].
  by destruct (bool_decide (processRecording now (a :: acts) = [])).
Qed.

(** X22. When a teaching session schedules the suggestion, the Refined
    Script is non-empty, and once the timer has fired and the user accepts,
    the saved task is that Refined Script. *)
Theorem X22_saved_task_is_refined_script
    (now : Z) (acts : list RecordedAction) (s : App.State) :
  (App.teach now acts s).2 ≠ [] →
  processRecording now acts ≠ []
  ∧ App.showSuggestion (App.fire App.RevealSuggestion (App.teach now acts s).1)
    = true
  ∧ App.savedTask
      (App.handleYesSuggestion
         (App.fire App.RevealSuggestion (App.teach now acts s).1)).1
    = Some (processRecording now acts).
Proof.
  destruct (session_recorded_and_timers now acts s) as (Hrec & Htimers).
  rewrite Htimers.
  destruct (bool_decide_reflect (processRecording now acts = [])) as [He|Hne];
    [done|].
  intros _. split_and!; [done|done|].
  unfold App.handleYesSuggestion, App.fire. simpl. by rewrite Hrec.
Qed.

Lemma X22_witness :
  processRecording 0 scenarioC ≠ []
  ∧ App.showSuggestion
      (App.fire App.RevealSuggestion (App.teach 0 scenarioC App.initial).1)
    = true
  ∧ App.savedTask
      (App.handleYesSuggestion
         (App.fire App.RevealSuggestion (App.teach 0 scenarioC App.initial).1)).1
    = Some (processRecording 0 scenarioC).
Proof.
  apply (X22_saved_task_is_refined_script 0 scenarioC App.initial).
  vm_compute. discriminate.
Defined.

(** * The goal of a refined script *)

Lemma processRecording_NoDup now l : NoDup (target <$> processRecording now l).
Proof.
  unfold processRecording. destruct (decide _); [constructor|].
  apply pruneNoise_NoDup.
Qed.

(** What the Refined Script of a log with agreeing kinds retains for a
    target: what the log retains, when that record is its own goal. *)
Lemma pick_refined now l t :
  Forall kind_agrees l →
  pick_from None t (processRecording now l)
  = g ← pick_from None t l; if settled g then Some g else None.
Proof.
  intros Hl.
  destruct (pick_from None t (processRecording now l)) as [r|] eqn:Hr.
  - apply pick_from_origin in Hr as [[=]|[Hin Htg]].
    apply (processRecording_retained now l r Hl) in Hin as [Hp Hs].
    rewrite Htg in Hp. rewrite Hp. simpl. by rewrite Hs.
  - destruct (pick_from None t l) as [g|] eqn:Hg; [|done]. simpl.
    destruct (settled g) eqn:Hs; [|done].
    pose proof Hg as [[=]|[_ Htg]]%pick_from_origin.
    destruct (proj1 (pick_from_None _ _) Hr g); [|done].
    apply retained_settled_is_refined; [|done].
    apply pick_first_latest. by rewrite Htg.
Qed.

Lemma settled_iff_terminal t g :
  target g = t → kind_agrees g →
  settled g = true
  ↔ completes t (value g) = true ∨ is_Some (settles t (value g)).
Proof.
  intros Htg Hk. split; [|by apply terminal_settled].
  subst t. unfold settled.
  intros [[Hc _]%andb_true_iff|[Hs _]%andb_true_iff]%orb_true_iff.
  - by left.
  - right. by apply bool_decide_eq_true in Hs.
Qed.

Lemma deduceGoal_completed_NoDup now l :
  NoDup (FinalState.completedTasks (deduceGoal now l)).
Proof.
  unfold deduceGoal.
  destruct (classify_completed_sublist (targetStatesOf l)
              (FinalState.mk [] ∅ now)) as (ks & -> & Hsub).
  simpl. apply (sublist_NoDup _ _ (targetStatesOf_NoDup l) Hsub).
Qed.

(** X23. For a log in which boolean [true] is carried only by toggles and
    strings only by inputs, the Refined Script reaches the goal of the raw
    log: goal deduction on the Refined Script gives the same form values and
    the same completed tasks, the latter possibly in another order. *)
Theorem X23_refined_script_reaches_goal
    (now now' : Z) (l : list RecordedAction) :
  Forall kind_agrees l →
  FinalState.formValues (deduceGoal now' (processRecording now l))
  = FinalState.formValues (deduceGoal now l)
  ∧ FinalState.completedTasks (deduceGoal now' (processRecording now l))
    ≡ₚ FinalState.completedTasks (deduceGoal now l).
Proof.
  intros Hl.
  assert (∀ t g, pick_from None t l = Some g →
            (settled g = true
             ↔ completes t (value g) = true ∨ is_Some (settles t (value g))))
    as Hterm.
  { intros t g Hg. apply pick_from_origin in Hg as [[=]|[Hin Htg]].
    apply settled_iff_terminal; [done|].
    by apply (proj1 (Forall_forall _ _) Hl). }
  split.
  - apply map_eq. intros t. rewrite !deduceGoal_form, (pick_refined now l t Hl).
    destruct (pick_from None t l) as [g|] eqn:Hg; [|done]. simpl.
    destruct (settled g) eqn:Hs; [done|]. simpl.
    destruct (settles t (value g)) as [s|] eqn:Hst; [|done].
    assert (settled g = true) as Hs'; [|congruence].
    apply (Hterm t g Hg). right. by exists s.
  - apply NoDup_Permutation; [apply deduceGoal_completed_NoDup..|].
    intros t. rewrite !deduceGoal_completed, (pick_refined now l t Hl).
    split.
    + intros (a & Ha & Hc).
      destruct (pick_from None t l) as [g|] eqn:Hg; [|done]. simpl in Ha.
      destruct (settled g); [|done]. injection Ha as ->. by exists a.
    + intros (a & Ha & Hc). exists a. rewrite Ha. simpl.
      assert (settled a = true) as ->; [|done].
      apply (Hterm t a Ha). by left.
Qed.

Lemma X23_witness :
  FinalState.formValues (deduceGoal 1 (processRecording 0 scenarioD))
  = FinalState.formValues (deduceGoal 0 scenarioD)
  ∧ FinalState.completedTasks (deduceGoal 1 (processRecording 0 scenarioD))
    ≡ₚ FinalState.completedTasks (deduceGoal 0 scenarioD).
Proof.
  apply (X23_refined_script_reaches_goal 0 1 scenarioD). repeat constructor.
Defined.
